(** * kafka-connector: a shallow embedding of [main.go]

    The connector reads its configuration from the process environment,
    waits for the Kafka broker, then runs two tasks over one shared
    topic map: a ticker-driven refresh of the map from the gateway, and
    a consumer loop that invokes every function subscribed to the topic
    of each message before marking the message's offset.

    The embedding is state passing: every effect of the program (a log
    line, a line on standard output, an HTTP request, an offset mark, a
    sleep, the exit of the process) is appended to a chronological trace,
    and the answers of the outside world (the broker, the gateway, the
    registry) are inputs or oracles. *)

From Stdlib Require Import ZArith Ascii String.
From stdpp Require Import gmap strings list.

Local Open Scope Z_scope.
Local Open Scope string_scope.
Local Open Scope list_scope.

Set Warnings "-clear-no-such-hyp".

(** ** Go's [time] and [strings] packages, as far as [main.go] uses them *)

Module time.

(** [time.Duration] is an [int64] count of nanoseconds. *)
Definition Duration : Type := Z.

Definition Nanosecond : Duration := 1.
Definition Microsecond : Duration := 1000 * Nanosecond.
Definition Millisecond : Duration := 1000 * Microsecond.
Definition Second : Duration := 1000 * Millisecond.
Definition Minute : Duration := 60 * Second.
Definition Hour : Duration := 60 * Minute.

End time.

Module strings.

(** [strings.Split(s, sep)] for a one-byte separator: the substrings of
    [s] between the occurrences of [sep]; a string without separator
    yields itself, also when it is empty. *)
Fixpoint Split (s : string) (sep : ascii) : list string :=
    match s with
    | EmptyString => [EmptyString]
    | String c s' =>
        if Ascii.eqb c sep then EmptyString :: Split s' sep
        else match Split s' sep with
             | seg :: rest => String c seg :: rest
             | [] => [String c EmptyString]
             end
    end.

(** [strings.Join(segs, sep)], the inverse reading of [Split]. *)
Fixpoint Join (segs : list string) (sep : ascii) : string :=
    match segs with
    | [] => EmptyString
    | [seg] => seg
    | seg :: rest => seg +:+ String sep (Join rest sep)
    end.

Fixpoint contains (c : ascii) (s : string) : bool :=
    match s with
    | EmptyString => false
    | String d s' => Ascii.eqb c d || contains c s'
    end.

End strings.

(** ** The data of the program *)

Import time.

Record connectorConfig := {
  gatewayURL : string;
  upstreamTimeout : Duration;
  topics : list string;
  printResponse : bool;
  rebuildInterval : Duration;
  broker : string;
}.

(** The process environment read by [os.LookupEnv]. *)
Abbreviation environ := (gmap string string).

(** [sarama.ConsumerMessage], the fields the connector reads. *)
Record ConsumerMessage := {
  Topic : string;
  Partition : Z;
  Offset : Z;
  Value : list Byte.byte;
}.

(** [http.Request] as [http.NewRequest] builds it. *)
Record Request := {
  Method : string;
  URL : string;
  Header : list (string * string);
  Body : list Byte.byte;
}.

(** What [ioutil.ReadAll(res.Body)] returns: the bytes read and, when
    the read broke off, the error. *)
Record ReadAll := {
  bytesOut : list Byte.byte;
  readErr : option string;
}.

(** [http.Response]: [ResBody = None] is a nil [res.Body]. *)
Record Response := {
  StatusCode : Z;
  ResBody : option ReadAll;
}.

(** The two results of [c.Do(httpReq)]: a non-nil error, or a response. *)
Inductive DoResult :=
| DoErr (doErr : string)
| DoRes (res : Response).

(** [makeClient]: the [http.Client] with its transport settings. *)
Record Client := {
  DialTimeout : Duration;
  KeepAlive : Duration;
  MaxIdleConns : Z;
  MaxIdleConnsPerHost : Z;
  IdleConnTimeout : Duration;
}.

Definition makeClient (timeout : Duration) : Client :=
  {| DialTimeout := timeout;
     KeepAlive := 10 * Second;
     MaxIdleConns := 100;
     MaxIdleConnsPerHost := 100;
     IdleConnTimeout := 120 * Millisecond |}.

(** ** The package [types] *)

Module types.

(** Modelled from the spec: the package [types] of this repository
    (the subscription records that [FunctionLookupBuilder.Build] returns
    and the [TopicMap] with [NewTopicMap], [Sync] and [Match]) is not
    among the sources. Section 3 of the specification gives the data: a
    subscription record is a pair (functionIdentifier, topic), and the
    index maps a topic to the set of its function identifiers. *)
Record SubscriptionRecord := {
  functionIdentifier : string;
  topic : string;
}.

Abbreviation Index := (gmap string (gset string)).

(** Modelled from the spec: section 4.2, "returns the current subscriber
    set for a topic, or empty set if the topic has no subscribers". The
    lookup in one complete index. *)
Definition subscribers (idx : Index) (topicName : string) : gset string :=
  default ∅ (idx !! topicName).

(** Modelled from the spec: section 4.2, "builds a brand-new mapping
    from the given list, grouping by topic". One record is added to the
    mapping under construction. *)
Definition addRecord (idx : Index) (r : SubscriptionRecord) : Index :=
  <[topic r := {[functionIdentifier r]} ∪ subscribers idx (topic r)]> idx.

(** Modelled from the spec: section 4.2, the "brand-new mapping" of
    [sync] for a list of records, built from the empty one. *)
Definition byTopic (subscriptions : list SubscriptionRecord) : Index :=
  foldl addRecord ∅ subscriptions.

(** Modelled from the spec: the topic map is one shared reference to
    the current index, "empty at construction" (section 3). *)
Record TopicMap := { current : Index }.

(** Modelled from the spec: section 3, the index is "empty at
    construction"; [NewTopicMap] of the missing package. *)
Definition NewTopicMap : TopicMap := {| current := ∅ |}.

(** Modelled from the spec: section 4.2, [sync] "atomically swaps" the
    new mapping "in as the current index"; the index is "fully replaced
    (not incrementally merged)". *)
Definition Sync (t : TopicMap) (updated : list SubscriptionRecord) : TopicMap :=
  {| current := byTopic updated |}.

(** Modelled from the spec: section 4.2, [match]. *)
Definition Match (t : TopicMap) (topicName : string) : gset string :=
  subscribers (current t) topicName.

End types.

(** ** Effects *)

(** Lines written by the [log] package. *)
Inductive logLine :=
| LogTopicsUsage
| LogBindingTopics (topics : list string)
| LogConsumerFail (err : string)
| LogBuildFail (err : string)
| LogSyncing
| LogInvoke (matchedFunction : string)
| LogInvalidResponse (doErr : string)
| LogErrorReadingBody
| LogResponse (StatusCode : Z) (matchedFunction : string)
| LogResponseOutput (StatusCode : Z) (matchedFunction : string) (stringOutput : list Byte.byte).

(** Lines written to standard output by the [fmt] package. *)
Inductive outLine :=
| OutWaitBrokers (broker : string) (brokers : list string)
| OutReceived (num : Z) (topic : string) (partition : Z) (value : list Byte.byte)
| OutConsumerError (err : string)
| OutRebalanced (ntf : string).

(** A handle of [sarama.Client]. *)
Definition saramaClient : Type := nat.

Inductive Event :=
| EvLog (l : logLine)
| EvPrint (o : outLine)
| EvNewClient (brokers : list string)
| EvClientClose (client : saramaClient)
| EvSleep (d : Duration)
| EvNewConsumer (brokers : list string) (group : string) (topics : list string)
| EvNewTicker (d : Duration)
| EvSync (lookups : list types.SubscriptionRecord)
| EvDo (c : Client) (httpReq : Request)
| EvReqBodyClose (httpReq : Request)
| EvResBodyClose (matchedFunction : string)
| EvMarkOffset (msg : ConsumerMessage) (metadata : string)
| EvPanic
| EvExit (code : Z).

Abbreviation Trace := (list Event).

(** One round of the connect loop of [main]: what [sarama.NewClient]
    returned. *)
Record attempt := {
  client : option saramaClient;
  err : option string;
}.

(** What a task of [makeConsumer] wakes up on. *)
Inductive input :=
| Tick (build : string + list types.SubscriptionRecord)
| Message (msg : option ConsumerMessage)
| ConsumerError (err : string)
| Notification (ntf : string).

Inductive status :=
| Connecting
| Running
| Panicked
| Exited (code : Z).

#[global] Instance status_eq_dec : EqDecision status.
Proof. solve_decision. Defined.

(** The process: the shared topic map, the message counter of the
    consumer loop, everything done so far, and whether it still runs. *)
Record process := {
  topicMap : types.TopicMap;
  num : Z;
  trace : Trace;
  state : status;
}.

(** What [buildConnectorConfig] ends in: [log.Fatal] prints its message
    and exits the process, otherwise the configuration is returned. *)
Inductive startup :=
| Fatal (l : logLine)
| Built (config : connectorConfig).

(** The loop of lines 187-191: the non-empty segments are appended in
    the order of the split. *)
Fixpoint appendNonEmpty (topics : list string) (segs : list string) : list string :=
  match segs with
  | [] => topics
  | topic :: segs =>
      if (0 <? Z.of_nat (String.length topic))%Z
      then appendNonEmpty (topics ++ [topic]) segs
      else appendNonEmpty topics segs
  end.

Definition configuredTopics (env : environ) : list string :=
  match env !! "topics" with
  | Some val => appendNonEmpty [] (strings.Split val ","%char)
  | None => []
  end.

Definition MaxInt32 : Z := 2147483647.

Definition group : string := "faas-kafka-queue-workers".

(** ** Two tasks over the topic map, step by step *)

Module snapshot.

Import types.

(** Modelled from the spec: sections 4.2, 5 and 9 describe the topic map
    of the missing package [types] as "a single shared reference to an
    immutable mapping, replaced atomically; readers capture a local
    reference before reading". The writer task below runs a list of
    [sync] calls: each builds its mapping record by record in a private
    value and then publishes it in one step. The reader task runs a list
    of [match] calls: each captures the shared reference in one step and
    looks the topic up in the captured mapping in a later step. *)
Inductive writer :=
| Idle
| Building (todo : list SubscriptionRecord) (fresh : Index).

(** Modelled from the spec: section 9, a reader of the missing topic
    map between two calls, or holding the reference it captured. *)
Inductive reader :=
| Waiting
| Holding (captured : Index) (topicName : string).

(** Modelled from the spec: section 5, the two tasks and the one piece
    of state they share; [observed] collects the results of the [match]
    calls of the missing package. *)
Record system := {
  shared : Index;
  syncing : writer;
  syncs : list (list SubscriptionRecord);
  matching : reader;
  matches : list string;
  observed : list (string * gset string);
}.

(** Modelled from the spec: one step of the missing [sync]: start a
    call, add one record to the private mapping, or swap the finished
    mapping in (section 4.2, "the swap is the only mutation"). *)
Definition writerStep (s : system) : system :=
  match syncing s with
  | Idle =>
      match syncs s with
      | [] => s
      | subscriptions :: later =>
          {| shared := shared s; syncing := Building subscriptions ∅; syncs := later;
             matching := matching s; matches := matches s; observed := observed s |}
      end
  | Building (r :: todo) fresh =>
      {| shared := shared s; syncing := Building todo (addRecord fresh r); syncs := syncs s;
         matching := matching s; matches := matches s; observed := observed s |}
  | Building [] fresh =>
      {| shared := fresh; syncing := Idle; syncs := syncs s;
         matching := matching s; matches := matches s; observed := observed s |}
  end.

(** Modelled from the spec: one step of the missing [match]: capture
    the shared reference, or look the topic up in the captured mapping
    (section 5, "readers hold a reference to the snapshot at read
    time"). *)
Definition readerStep (s : system) : system :=
  match matching s with
  | Waiting =>
      match matches s with
      | [] => s
      | topicName :: later =>
          {| shared := shared s; syncing := syncing s; syncs := syncs s;
             matching := Holding (shared s) topicName; matches := later;
             observed := observed s |}
      end
  | Holding captured topicName =>
      {| shared := shared s; syncing := syncing s; syncs := syncs s;
         matching := Waiting; matches := matches s;
         observed := observed s ++ [(topicName, subscribers captured topicName)] |}
  end.

(** Modelled from the spec: section 5, "two concurrently running
    logical tasks" over the missing topic map. A schedule picks the task
    of each step: [true] the writer, [false] the reader. *)
Definition schedule (s : system) (choices : list bool) : system :=
  foldl (fun s (w : bool) => if w then writerStep s else readerStep s) s choices.

(** Modelled from the spec: the two tasks before their first step, the
    missing topic map holding the index of [t]. *)
Definition start (t : TopicMap) (syncs : list (list SubscriptionRecord))
    (matches : list string) : system :=
  {| shared := current t; syncing := Idle; syncs := syncs;
     matching := Waiting; matches := matches; observed := [] |}.

(** Modelled from the spec: section 4.2, the "complete" indexes a
    [match] of the missing package may see in a run: the one the run
    starts with and the one of each [sync] call. *)
Definition complete (t : TopicMap) (syncs : list (list SubscriptionRecord)) : list Index :=
  current t :: map byTopic syncs.

(** Modelled from the spec: what holds of the two tasks over the
    missing topic map at every step of every schedule. *)
Record consistent (t : TopicMap) (syncs0 : list (list SubscriptionRecord)) (s : system) : Prop := {
  consistent_shared : shared s ∈ complete t syncs0;
  consistent_syncs : syncs s ⊆ syncs0;
  consistent_building :
    ∀ todo fresh, syncing s = Building todo fresh →
      ∃ subscriptions, subscriptions ∈ syncs0 ∧ foldl addRecord fresh todo = byTopic subscriptions;
  consistent_holding :
    ∀ captured topicName, matching s = Holding captured topicName →
      captured ∈ complete t syncs0;
  consistent_observed :
    Forall (λ o, ∃ idx, idx ∈ complete t syncs0 ∧ o.2 = subscribers idx o.1) (observed s);
}.

End snapshot.

(** What a round of the connect loop that does not connect leaves in
    the trace (lines 46-55). *)
Definition failedRound (config : connectorConfig) (brokers : list string) (a : attempt) : Trace :=
  [EvNewClient brokers]
  ++ match client a with Some cl => [EvClientClose cl] | None => [] end
  ++ [EvPrint (OutWaitBrokers (broker config) brokers); EvSleep (1 * Second)].

(** ** Stand-ins for Go's library and for the gateway

    The theorems below hold for every [time.ParseDuration], every
    [url.Parse] and every gateway. To run the program on concrete inputs
    these are fixed to simple instances. *)

Module sample.

Definition digitValue (c : ascii) : option Z :=
  let n := Z.of_N (N_of_ascii c) in
  if ((48 <=? n) && (n <=? 57))%Z then Some (n - 48) else None.

Fixpoint leadingInt (s : string) (x : Z) : Z * string :=
  match s with
  | String c s' =>
      match digitValue c with
      | Some d => leadingInt s' (x * 10 + d)
      | None => (x, s)
      end
  | EmptyString => (x, s)
  end.

Definition unitMap (u : string) : option Z :=
  if String.eqb u "ns" then Some Nanosecond
  else if String.eqb u "us" then Some Microsecond
  else if String.eqb u "ms" then Some Millisecond
  else if String.eqb u "s" then Some Second
  else if String.eqb u "m" then Some Minute
  else if String.eqb u "h" then Some Hour
  else None.

(** [time.ParseDuration] on its simplest inputs, an unsigned decimal
    integer followed by one unit, as in [10s] or [250ms]; every other
    string is rejected here. *)
Definition ParseDuration (s : string) : option Duration :=
  let '(v, rest) := leadingInt s 0 in
  if (String.length rest =? String.length s)%nat then None
  else match unitMap rest with
       | Some unit => if (v * unit <=? 2 ^ 63 - 1)%Z then Some (v * unit) else None
       | None => None
       end.

Definition controlByte (c : ascii) : bool :=
  let n := Z.of_N (N_of_ascii c) in ((n <? 32) || (n =? 127))%Z.

Fixpoint hasControlByte (s : string) : bool :=
  match s with
  | EmptyString => false
  | String c s' => controlByte c || hasControlByte s'
  end.

(** [url.Parse] rejects a URL with an ASCII control byte; this instance
    rejects only those. *)
Definition urlParses (url : string) : bool := negb (hasControlByte url).

(** A gateway that answers every request with status 200 and the
    request's body. *)
Definition gatewayUp (c : Client) (h : Trace) (httpReq : Request) : DoResult :=
  DoRes {| StatusCode := 200;
           ResBody := Some {| bytesOut := Body httpReq; readErr := None |} |}.

(** A gateway that cannot be reached. *)
Definition gatewayDown (c : Client) (h : Trace) (httpReq : Request) : DoResult :=
  DoErr "connection refused".

Definition ordersAndPayments : list types.SubscriptionRecord :=
  [ {| types.functionIdentifier := "f1"; types.topic := "orders" |};
    {| types.functionIdentifier := "f2"; types.topic := "orders" |};
    {| types.functionIdentifier := "f1"; types.topic := "payments" |} ].

Definition orders : types.TopicMap := types.Sync types.NewTopicMap ordersAndPayments.

Definition hello : list Byte.byte := list_byte_of_string "hello".

Definition order (offset : Z) (value : list Byte.byte) : ConsumerMessage :=
  {| Topic := "orders"; Partition := 0; Offset := offset; Value := value |}.

Definition config : connectorConfig :=
  {| gatewayURL := "http://gateway:8080";
     upstreamTimeout := Second * 30;
     topics := ["orders"; "payments"];
     printResponse := false;
     rebuildInterval := Second * 3;
     broker := "kafka" |}.

Definition running (t : types.TopicMap) : process :=
  {| topicMap := t; num := 0; trace := []; state := Running |}.

End sample.

(** ** Reading a trace *)

Definition marked (e : Event) : option ConsumerMessage :=
  match e with
  | EvMarkOffset msg _ => Some msg
  | _ => None
  end.

(** The messages whose offsets were marked, in the order of the marks. *)
Definition marks (h : Trace) : list ConsumerMessage := omap marked h.

Definition requested (e : Event) : option Request :=
  match e with
  | EvDo _ httpReq => Some httpReq
  | _ => None
  end.

(** The HTTP requests that were sent, in order. *)
Definition requests (h : Trace) : list Request := omap requested h.

Definition received (i : input) : option ConsumerMessage :=
  match i with
  | Message (Some msg) => Some msg
  | _ => None
  end.

Definition failedTick (i : input) : bool :=
  match i with
  | Tick (inl _) => true
  | _ => false
  end.

(** A log line that carries a response body. *)
Definition logsBody (e : Event) : bool :=
  match e with
  | EvLog (LogResponseOutput _ _ _) => true
  | _ => false
  end.

Definition exits (e : Event) : bool :=
  match e with
  | EvExit _ | EvPanic => true
  | _ => false
  end.

(** The events a run of [mcb] can leave in the trace; a log line with
    the response body only under [printResponse]. *)
Definition dispatchEvent (config : connectorConfig) (e : Event) : bool :=
  match e with
  | EvLog (LogInvoke _) | EvLog (LogInvalidResponse _) | EvLog LogErrorReadingBody
  | EvLog (LogResponse _ _) | EvDo _ _ | EvReqBodyClose _ | EvResBodyClose _ => true
  | EvLog (LogResponseOutput _ _ _) => printResponse config
  | _ => false
  end.

(** The events one wake-up of [makeConsumer]'s tasks can leave. *)
Definition runEvent (config : connectorConfig) (e : Event) : bool :=
  dispatchEvent config e ||
  match e with
  | EvPrint (OutReceived _ _ _ _) | EvPrint (OutConsumerError _) | EvPrint (OutRebalanced _)
  | EvLog (LogBuildFail _) | EvLog LogSyncing | EvSync _
  | EvMarkOffset _ _ | EvPanic | EvExit _ => true
  | _ => false
  end.

(** The deferred calls of [mcb]: closing a request body or a response
    body. *)
Definition closes (e : Event) : bool :=
  match e with
  | EvReqBodyClose _ | EvResBodyClose _ => true
  | _ => false
  end.

Definition closedRequest (e : Event) : option Request :=
  match e with
  | EvReqBodyClose httpReq => Some httpReq
  | _ => None
  end.

(** The wake-ups of the consumer loop that carry no message: a consumer
    error, a rebalance notification, a receive on the closed message
    channel. *)
Definition idle (i : input) : bool :=
  match i with
  | ConsumerError _ | Notification _ | Message None => true
  | _ => false
  end.

(** What such a wake-up prints (lines 155-158). *)
Definition printed (i : input) : Trace :=
  match i with
  | ConsumerError err => [EvPrint (OutConsumerError err)]
  | Notification ntf => [EvPrint (OutRebalanced ntf)]
  | _ => []
  end.

(** The lookups of a tick whose [Build] succeeded. *)
Definition built (i : input) : option (list types.SubscriptionRecord) :=
  match i with
  | Tick (inr lookups) => Some lookups
  | _ => None
  end.

(** The environment variables [buildConnectorConfig] looks up. *)
Definition configKeys : list string :=
  ["broker_host"; "topics"; "gateway_url"; "upstream_timeout"; "rebuild_interval"].

(** An answer of [sarama.NewClient] that ends the connect loop. *)
Definition connected (a : attempt) : bool :=
  match client a, err a with
  | Some _, None => true
  | _, _ => false
  end.

(** ** The program *)

Inductive flow :=
| Next
| Return
| Panic.

Section Connector.

(** [time.ParseDuration] belongs to Go's library, not to this
    repository: it is a parameter, [None] standing for a non-nil error. *)
Variable ParseDuration : string -> option Duration.

(** Whether [http.NewRequest] accepts a URL (Go's [url.Parse]); the
    method of every request of the connector is the valid [POST]. *)
Variable urlParses : string -> bool.

(** The gateway as the connector meets it: the answer of [c.Do] to a
    request, which may depend on everything that happened before. *)
Variable Do : Client -> Trace -> Request -> DoResult.

Definition durationSetting (env : environ) (key : string) (default : Duration) : Duration :=
  match env !! key with
  | Some val =>
      match ParseDuration val with
      | Some parsedVal => parsedVal
      | None => default
      end
  | None => default
  end.

Definition buildConnectorConfig (env : environ) : startup :=
  let broker := match env !! "broker_host" with Some val => val | None => "kafka" end in
  let topics := configuredTopics env in
  if (Z.of_nat (length topics) =? 0)%Z then Fatal LogTopicsUsage
  else
    let gatewayURL :=
      match env !! "gateway_url" with Some val => val | None => "http://gateway:8080" end in
    let upstreamTimeout := durationSetting env "upstream_timeout" (Second * 30) in
    let rebuildInterval := durationSetting env "rebuild_interval" (Second * 3) in
    Built {| gatewayURL := gatewayURL;
             upstreamTimeout := upstreamTimeout;
             topics := topics;
             printResponse := false;
             rebuildInterval := rebuildInterval;
             broker := broker |}.

(** [http.NewRequest]: a nil request when the URL does not parse; the
    connector drops the error. *)
Definition NewRequest (method url : string) (body : list Byte.byte) : option Request :=
  if urlParses url
  then Some {| Method := method; URL := url; Header := []; Body := body |}
  else None.

Definition functionURL (config : connectorConfig) (matchedFunction : string) : string :=
  gatewayURL config +:+ "/function/" +:+ matchedFunction.

(** The body of the loop of [mcb] (lines 112-137) for one matched
    function. [deferred] is the stack of the calls deferred so far in
    this run of [mcb], the latest first. Dereferencing the nil request
    in [defer httpReq.Body.Close()] panics. *)
Definition invoke (config : connectorConfig) (c : Client) (msg : ConsumerMessage)
    (matchedFunction : string) (h : Trace) (deferred : list Event)
  : Trace * list Event * flow :=
  let h := h ++ [EvLog (LogInvoke matchedFunction)] in
  match NewRequest "POST" (functionURL config matchedFunction) (Value msg) with
  | None => (h, deferred, Panic)
  | Some httpReq =>
      let deferred := EvReqBodyClose httpReq :: deferred in
      let answer := Do c h httpReq in
      let h := h ++ [EvDo c httpReq] in
      match answer with
      | DoErr doErr => (h ++ [EvLog (LogInvalidResponse doErr)], deferred, Return)
      | DoRes res =>
          match ResBody res with
          | None => (h, deferred, Next)
          | Some body =>
              let deferred := EvResBodyClose matchedFunction :: deferred in
              let h := match readErr body with
                       | Some _ => h ++ [EvLog LogErrorReadingBody]
                       | None => h
                       end in
              let stringOutput := bytesOut body in
              let h := if printResponse config
                       then h ++ [EvLog (LogResponseOutput (StatusCode res) matchedFunction stringOutput)]
                       else h ++ [EvLog (LogResponse (StatusCode res) matchedFunction)] in
              (h, deferred, Next)
          end
      end
  end.

(** [for _, matchedFunction := range matchedFunctions]. *)
Fixpoint invokeEach (config : connectorConfig) (c : Client) (msg : ConsumerMessage)
    (matchedFunctions : list string) (h : Trace) (deferred : list Event)
  : Trace * list Event * flow :=
  match matchedFunctions with
  | [] => (h, deferred, Next)
  | matchedFunction :: rest =>
      match invoke config c msg matchedFunction h deferred with
      | (h, deferred, Next) => invokeEach config c msg rest h deferred
      | stopped => stopped
      end
  end.

(** [mcb] (lines 106-141). When the closure is left, by the end of the
    loop, by [return] or by a panic, the deferred calls run, the latest
    first. The result tells whether it panicked. *)
Definition mcb (config : connectorConfig) (c : Client) (topicMap : types.TopicMap)
    (msg : ConsumerMessage) (h : Trace) : Trace * bool :=
  if (0 <? Z.of_nat (length (Value msg)))%Z then
    let matchedFunctions := elements (types.Match topicMap (Topic msg)) in
    match invokeEach config c msg matchedFunctions h [] with
    | (h, deferred, Panic) => (h ++ deferred, true)
    | (h, deferred, _) => (h ++ deferred, false)
    end
  else (h, false).

(** One wake-up of a task of [makeConsumer]: the refresh goroutine on a
    tick (lines 95-103), the consumer loop on one of its three channels
    (lines 146-159). The two tasks share the topic map only, and the
    consumer loop reads it once per message, at line 109: a wake-up is
    served here as a whole, a tick during a dispatch counting as one
    right after the lookup of that dispatch. A process that has exited
    does nothing more. *)
Definition step (config : connectorConfig) (c : Client) (p : process) (i : input) : process :=
  match state p with
  | Running =>
      match i with
      | Tick (inl err) =>
          {| topicMap := topicMap p; num := num p;
             trace := trace p ++ [EvLog (LogBuildFail err); EvExit 1];
             state := Exited 1 |}
      | Tick (inr lookups) =>
          {| topicMap := types.Sync (topicMap p) lookups; num := num p;
             trace := trace p ++ [EvLog LogSyncing; EvSync lookups];
             state := Running |}
      | Message None => p
      | Message (Some msg) =>
          let num := (num p + 1) `mod` MaxInt32 in
          let h := trace p ++ [EvPrint (OutReceived num (Topic msg) (Partition msg) (Value msg))] in
          match mcb config c (topicMap p) msg h with
          | (h, true) =>
              {| topicMap := topicMap p; num := num;
                 trace := h ++ [EvPanic; EvExit 2]; state := Panicked |}
          | (h, false) =>
              {| topicMap := topicMap p; num := num;
                 trace := h ++ [EvMarkOffset msg ""]; state := Running |}
          end
      | ConsumerError err =>
          {| topicMap := topicMap p; num := num p;
             trace := trace p ++ [EvPrint (OutConsumerError err)];
             state := Running |}
      | Notification ntf =>
          {| topicMap := topicMap p; num := num p;
             trace := trace p ++ [EvPrint (OutRebalanced ntf)];
             state := Running |}
      end
  | _ => p
  end.

Definition run (config : connectorConfig) (c : Client) (p : process) (inputs : list input) : process :=
  foldl (step config c) p inputs.

(** The period of the refresh ticker (line 92). *)
Definition tickerPeriod (config : connectorConfig) : Duration := Second * 3.

(** The client of the lookup builder (lines 87-90). *)
Definition lookupClient (config : connectorConfig) : Client :=
  makeClient (rebuildInterval config).

(** [makeConsumer] (lines 61-161): [newConsumer] is the error of
    [cluster.NewConsumer], [inputs] the wake-ups of the two tasks in the
    order in which they are served. *)
Definition makeConsumer (brokers : list string) (config : connectorConfig)
    (newConsumer : option string) (inputs : list input) (h : Trace) : process :=
  let h := h ++ [EvLog (LogBindingTopics (topics config));
                 EvNewConsumer brokers group (topics config)] in
  match newConsumer with
  | Some err =>
      {| topicMap := types.NewTopicMap; num := 0;
         trace := h ++ [EvLog (LogConsumerFail err); EvExit 1];
         state := Exited 1 |}
  | None =>
      let c := makeClient (upstreamTimeout config) in
      let h := h ++ [EvNewTicker (tickerPeriod config)] in
      run config c {| topicMap := types.NewTopicMap; num := 0; trace := h; state := Running |} inputs
  end.

(** The connect loop of [main] (lines 44-56) over the answers of
    [sarama.NewClient], one per round. [None] when the answers are used
    up and the loop is still waiting. *)
Fixpoint connect (config : connectorConfig) (brokers : list string)
    (attempts : list attempt) (h : Trace) : Trace * option saramaClient :=
  match attempts with
  | [] => (h, None)
  | a :: attempts =>
      let h := h ++ [EvNewClient brokers] in
      match client a, err a with
      | Some cl, None => (h, Some cl)
      | _, _ =>
          let h := match client a with
                   | Some cl => h ++ [EvClientClose cl]
                   | None => h
                   end in
          let h := h ++ [EvPrint (OutWaitBrokers (broker config) brokers)] in
          let h := h ++ [EvSleep (1 * Second)] in
          connect config brokers attempts h
      end
  end.

(** [main] (lines 37-59). *)
Definition main (env : environ) (attempts : list attempt)
    (newConsumer : option string) (inputs : list input) : process :=
  match buildConnectorConfig env with
  | Fatal l =>
      {| topicMap := types.NewTopicMap; num := 0;
         trace := [EvLog l; EvExit 1]; state := Exited 1 |}
  | Built config =>
      let brokers := [broker config +:+ ":9092"] in
      match connect config brokers attempts [] with
      | (h, None) =>
          {| topicMap := types.NewTopicMap; num := 0; trace := h; state := Connecting |}
      | (h, Some _) => makeConsumer brokers config newConsumer inputs h
      end
  end.



(** The request [mcb] sends to a matched function (lines 114-115). *)
Definition invocation (config : connectorConfig) (payload : list Byte.byte)
    (matchedFunction : string) : Request :=
  {| Method := "POST"; URL := functionURL config matchedFunction;
     Header := []; Body := payload |}.

(** The line the consumer loop prints when the process [p] receives
    [msg] (lines 149-150). *)
Definition receivedLine (p : process) (msg : ConsumerMessage) : Event :=
  EvPrint (OutReceived ((num p + 1) `mod` MaxInt32)
             (Topic msg) (Partition msg) (Value msg)).

(** The call [mcb(msg)] of line 152 in the process [p]: on the topic map
    of [p], after everything [p] did and the line of the receipt. *)
Definition dispatch (config : connectorConfig) (c : Client) (p : process)
    (msg : ConsumerMessage) : Trace * bool :=
  mcb config c (topicMap p) msg (trace p ++ [receivedLine p msg]).

(** ** The configuration read from the environment *)

Lemma Split_cons (s : string) (sep : ascii) :
  ∃ seg rest, strings.Split s sep = seg :: rest.
Proof.
  induction s as [|c s IH]; simpl; [by eauto|].
  destruct (Ascii.eqb c sep); [by eauto|].
  destruct IH as (seg & rest & ->). by eauto.
Qed.

Lemma Join_cons (seg : string) (rest : list string) (sep : ascii) (c : ascii) :
  strings.Join (String c seg :: rest) sep = String c (strings.Join (seg :: rest) sep).
Proof. by destruct rest. Qed.

(** Joining the segments with the separator gives the string back. *)
Lemma Join_Split (s : string) (sep : ascii) :
  strings.Join (strings.Split s sep) sep = s.
Proof.
  induction s as [|c s IH]; simpl; [done|].
  destruct (Ascii.eqb_spec c sep) as [->|Hne].
  - destruct (Split_cons s sep) as (seg & rest & Heq).
    rewrite Heq in IH |- *.
    change (String sep (strings.Join (seg :: rest) sep) = String sep s).
    by rewrite IH.
  - destruct (Split_cons s sep) as (seg & rest & Heq).
    rewrite Heq in IH |- *.
    change (strings.Join (String c seg :: rest) sep = String c s).
    by rewrite Join_cons, IH.
Qed.

(** No segment holds the separator. *)
Lemma Split_segments (s : string) (sep : ascii) :
  Forall (λ seg, strings.contains sep seg = false) (strings.Split s sep).
Proof.
  induction s as [|c s IH]; simpl.
  - by repeat constructor.
  - destruct (Ascii.eqb_spec c sep) as [->|Hne].
    + by constructor.
    + destruct (strings.Split s sep) as [|seg rest].
      * repeat constructor. simpl.
        destruct (Ascii.eqb_spec sep c); [congruence|done].
      * inversion_clear IH as [|? ? Hseg Hrest]. constructor; [|done].
        simpl. rewrite Hseg.
        destruct (Ascii.eqb_spec sep c); [congruence|done].
Qed.

Lemma appendNonEmpty_filter (topics segs : list string) :
  appendNonEmpty topics segs = topics ++ filter (λ seg, seg ≠ "") segs.
Proof.
  revert topics. induction segs as [|seg segs IH]; intros topics; simpl.
  - by rewrite app_nil_r.
  - destruct seg as [|c seg]; simpl.
    + rewrite IH. by rewrite filter_cons_False by (intros Hne; by apply Hne).
    + rewrite IH, filter_cons_True by done. by rewrite <- app_assoc.
Qed.

Lemma configuredTopics_filter (env : environ) :
  configuredTopics env =
  match env !! "topics" with
  | Some val => filter (λ seg, seg ≠ "") (strings.Split val ",")
  | None => []
  end.
Proof.
  unfold configuredTopics. destruct (env !! "topics"); [|done].
  by rewrite appendNonEmpty_filter.
Qed.

Lemma filter_nonempty_nil (segs : list string) :
  filter (λ seg, seg ≠ "") segs = [] ↔ Forall (λ seg, seg = "") segs.
Proof.
  induction segs as [|seg segs IH]; [by split; [constructor|]|].
  destruct (decide (seg = "")) as [->|Hne].
  - rewrite filter_cons_False by (intros Hne; by apply Hne). rewrite IH.
    split; [by constructor|by inversion 1].
  - rewrite filter_cons_True by done. split; [done|by inversion 1].
Qed.

(** [buildConnectorConfig] fails in one way only, on an empty topic
    list; otherwise it returns the configuration read field by field. *)
Lemma buildConnectorConfig_cases (env : environ) :
  (configuredTopics env = [] ∧ buildConnectorConfig env = Fatal LogTopicsUsage)
  ∨ (configuredTopics env ≠ [] ∧
     buildConnectorConfig env =
     Built {| gatewayURL := default "http://gateway:8080" (env !! "gateway_url");
              upstreamTimeout := durationSetting env "upstream_timeout" (Second * 30);
              topics := configuredTopics env;
              printResponse := false;
              rebuildInterval := durationSetting env "rebuild_interval" (Second * 3);
              broker := default "kafka" (env !! "broker_host") |}).
Proof.
  unfold buildConnectorConfig.
  destruct (configuredTopics env) as [|topic rest] eqn:Htopics; simpl.
  - by left.
  - right. split; [done|].
    by destruct (env !! "gateway_url"), (env !! "broker_host").
Qed.


(** C10. [buildConnectorConfig] splits the value of [topics] on commas
    and drops the empty segments: the topic list of the configuration
    holds the non-empty segments, in their order. When the variable is
    unset, or when every segment is empty, it ends in [log.Fatal] and
    [main] exits with status 1 before anything else is done. The
    segments are those of [strings.Split]: joined by commas they give the
    value back, and none holds a comma. *)
Theorem buildConnectorConfig_topics (env : environ) (val : option string) :
  env !! "topics" = val →
  let segments := match val with Some v => strings.Split v "," | None => [] end in
  let kept := filter (λ seg, seg ≠ "") segments in
  (∀ v, val = Some v →
     strings.Join segments "," = v ∧
     Forall (λ seg, strings.contains "," seg = false) segments)
  ∧ match buildConnectorConfig env with
    | Built config => topics config = kept ∧ kept ≠ []
    | Fatal l =>
        l = LogTopicsUsage ∧ Forall (λ seg, seg = "") segments
        ∧ ∀ attempts newConsumer inputs,
            main env attempts newConsumer inputs
            = {| topicMap := types.NewTopicMap; num := 0;
                 trace := [EvLog LogTopicsUsage; EvExit 1]; state := Exited 1 |}
    end.
Proof.
  intros Hval segments kept.
  assert (configuredTopics env = kept) as Hkept.
  { rewrite configuredTopics_filter, Hval. unfold kept, segments. by destruct val. }
  split.
  - intros v ->. unfold segments. split; [apply Join_Split|apply Split_segments].
  - destruct (buildConnectorConfig_cases env) as [[Hnil Heq]|[Hcons ->]].
    + rewrite Heq. split_and!; [done| |].
      * apply filter_nonempty_nil. change (kept = []). by rewrite <- Hkept.
      * intros attempts newConsumer inputs. unfold main. by rewrite Heq.
    + by rewrite Hkept in Hcons |- *.
Qed.

(** C8. When [upstream_timeout] or [rebuild_interval] is set to a string
    that [time.ParseDuration] rejects, [buildConnectorConfig] does what
    it does when the variable is unset: the field keeps its default (30
    seconds, 3 seconds), the whole run of [main] is the same, and the
    only failure left is the one of an empty topic list, so the parse
    error is neither fatal nor reported. *)
Theorem unparsed_duration_keeps_default (env : environ) (key val : string) :
  key = "upstream_timeout" ∨ key = "rebuild_interval" →
  env !! key = Some val →
  ParseDuration val = None →
  buildConnectorConfig env = buildConnectorConfig (delete key env)
  ∧ (∀ attempts newConsumer inputs,
       main env attempts newConsumer inputs
       = main (delete key env) attempts newConsumer inputs)
  ∧ (∀ l, buildConnectorConfig env = Fatal l →
       l = LogTopicsUsage ∧ configuredTopics env = [])
  ∧ (∀ config, buildConnectorConfig env = Built config →
       (key = "upstream_timeout" → upstreamTimeout config = Second * 30) ∧
       (key = "rebuild_interval" → rebuildInterval config = Second * 3)).
Proof.
  intros Hkey Hset Hparse.
  assert (∀ default, durationSetting env key default = default) as Hdefault.
  { intros default. unfold durationSetting. by rewrite Hset, Hparse. }
  assert (∀ k default, durationSetting (delete key env) k default =
                        durationSetting env k default) as Hsame.
  { intros k default. unfold durationSetting.
    destruct (decide (key = k)) as [<-|Hne].
    - by rewrite lookup_delete_eq, Hset, Hparse.
    - by rewrite lookup_delete_ne. }
  assert (∀ k, k = "topics" ∨ k = "gateway_url" ∨ k = "broker_host" →
               delete key env !! k = env !! k) as Hother.
  { intros k Hk. apply lookup_delete_ne.
    destruct Hkey as [->| ->], Hk as [->|[->| ->]]; discriminate. }
  assert (buildConnectorConfig env = buildConnectorConfig (delete key env)) as Hunset.
  { unfold buildConnectorConfig, configuredTopics.
    rewrite !Hsame, !Hother by (auto; fail). done. }
  split_and!.
  - done.
  - intros attempts newConsumer inputs. unfold main. by rewrite Hunset.
  - intros l Hfatal.
    destruct (buildConnectorConfig_cases env) as [[Hnil Heq]|[_ Heq]];
      rewrite Heq in Hfatal; [|done]. by inversion Hfatal.
  - intros config Hbuilt.
    destruct (buildConnectorConfig_cases env) as [[_ Heq]|[_ Heq]];
      rewrite Heq in Hbuilt; [done|]. inversion_clear Hbuilt. simpl.
    split; intros ->; apply Hdefault.
Qed.

(** ** The dispatch of one message *)

Lemma invoke_events (config : connectorConfig) (c : Client) (msg : ConsumerMessage)
    (matchedFunction : string) (h h' : Trace) (deferred deferred' : list Event) (fl : flow) :
  invoke config c msg matchedFunction h deferred = (h', deferred', fl) →
  ∃ ev dd, h' = h ++ ev ∧ deferred' = dd ++ deferred
           ∧ Forall (dispatchEvent config) ev ∧ Forall (dispatchEvent config) dd.
Proof.
  unfold invoke. intros Hinvoke.
  destruct (NewRequest _ _ _) as [httpReq|].
  2:{ simplify_eq. eexists _, []. split_and!; [done..| |]; by repeat constructor. }
  destruct (Do _ _ _) as [doErr|res].
  { simplify_eq. eexists _, [_]. rewrite <- !app_assoc.
    split_and!; [done..| |]; by repeat constructor. }
  destruct (ResBody res) as [body|].
  2:{ simplify_eq. eexists _, [_]. rewrite <- !app_assoc.
      split_and!; [done..| |]; by repeat constructor. }
  destruct (readErr body), (printResponse config) eqn:Hprint; simplify_eq;
    eexists _, [_; _]; rewrite <- !app_assoc;
    (split_and!; [done..| |]); repeat constructor; simpl; by rewrite ?Hprint.
Qed.

Lemma invokeEach_events (config : connectorConfig) (c : Client) (msg : ConsumerMessage)
    (matchedFunctions : list string) (h h' : Trace) (deferred deferred' : list Event)
    (fl : flow) :
  invokeEach config c msg matchedFunctions h deferred = (h', deferred', fl) →
  ∃ ev dd, h' = h ++ ev ∧ deferred' = dd ++ deferred
           ∧ Forall (dispatchEvent config) ev ∧ Forall (dispatchEvent config) dd.
Proof.
  revert h deferred.
  induction matchedFunctions as [|matchedFunction rest IH]; intros h deferred; simpl.
  - intros [= <- <- <-]. exists [], []. by rewrite app_nil_r.
  - destruct (invoke config c msg matchedFunction h deferred) as [[h1 deferred1] fl1] eqn:Hone.
    apply invoke_events in Hone as (ev1 & dd1 & -> & -> & Hev1 & Hdd1).
    destruct fl1.
    + intros (ev & dd & -> & -> & Hev & Hdd)%IH.
      exists (ev1 ++ ev), (dd ++ dd1). rewrite <- !app_assoc.
      split_and!; [done..| |]; by apply Forall_app.
    + intros [= <- <- <-]. by exists ev1, dd1.
    + intros [= <- <- <-]. by exists ev1, dd1.
Qed.

(** A run of [mcb] appends events of the dispatch, and nothing else. *)
Lemma mcb_events (config : connectorConfig) (c : Client) (t : types.TopicMap)
    (msg : ConsumerMessage) (h h' : Trace) (panicked : bool) :
  mcb config c t msg h = (h', panicked) →
  ∃ ev, h' = h ++ ev ∧ Forall (dispatchEvent config) ev.
Proof.
  unfold mcb. destruct (0 <? _)%Z.
  - destruct (invokeEach _ _ _ _ _ _) as [[h1 deferred1] fl1] eqn:Hall.
    apply invokeEach_events in Hall as (ev & dd & -> & -> & Hev & Hdd).
    rewrite app_nil_r.
    destruct fl1; intros [= <- <-]; exists (ev ++ dd); rewrite <- app_assoc;
      (split; [done|by apply Forall_app]).
  - intros [= <- <-]. exists []. by rewrite app_nil_r.
Qed.

(** One wake-up appends to the trace. *)
Lemma step_events (config : connectorConfig) (c : Client) (p : process) (i : input) :
  ∃ ev, trace (step config c p i) = trace p ++ ev ∧ Forall (runEvent config) ev.
Proof.
  unfold step. destruct (state p); try by (exists []; rewrite app_nil_r).
  destruct i as [[buildErr|lookups]|[msg|]|consumerErr|ntf]; simpl;
    try by (eexists; split; [done|repeat constructor]).
  - destruct (mcb _ _ _ _ _) as [h' panicked] eqn:Hmcb.
    apply mcb_events in Hmcb as (ev & -> & Hev).
    assert (Forall (runEvent config) ev) as Hrun.
    { eapply Forall_impl; [done|]. intros e He. apply orb_True. by left. }
    destruct panicked; simpl; rewrite <- !app_assoc; eexists; (split; [done|]);
      (constructor; [done|]); (apply Forall_app; split; [done|]); by repeat constructor.
  - exists []. by rewrite app_nil_r.
Qed.

Lemma run_events (config : connectorConfig) (c : Client) (p : process) (inputs : list input) :
  ∃ ev, trace (run config c p inputs) = trace p ++ ev ∧ Forall (runEvent config) ev.
Proof.
  revert p. induction inputs as [|i inputs IH]; intros p; simpl.
  - exists []. by rewrite app_nil_r.
  - destruct (IH (step config c p i)) as (ev2 & -> & Hev2).
    destruct (step_events config c p i) as (ev1 & -> & Hev1).
    exists (ev1 ++ ev2). rewrite <- app_assoc. split; [done|by apply Forall_app].
Qed.

Lemma runEvent_logsBody (config : connectorConfig) (e : Event) :
  printResponse config = false → runEvent config e → logsBody e = false.
Proof.
  intros Hprint. unfold runEvent.
  destruct e as [[]| | | | | | | | | | | | |]; simpl; by rewrite ?Hprint.
Qed.

(** A process that has stopped stays as it is. *)
Lemma run_stopped (config : connectorConfig) (c : Client) (p : process) (inputs : list input) :
  state p ≠ Running → run config c p inputs = p.
Proof.
  intros Hstopped. induction inputs as [|i inputs IH]; simpl; [done|].
  replace (step config c p i) with p; [done|].
  unfold step. by destruct (state p).
Qed.

Lemma run_app (config : connectorConfig) (c : Client) (p : process) (inputs later : list input) :
  run config c p (inputs ++ later) = run config c (run config c p inputs) later.
Proof. apply foldl_app. Qed.


(** ** Waiting for the broker *)

Lemma connect_failed (config : connectorConfig) (brokers : list string)
    (a : attempt) (attempts : list attempt) (h : Trace) :
  connected a = false →
  connect config brokers (a :: attempts) h
  = connect config brokers attempts (h ++ failedRound config brokers a).
Proof.
  unfold connected, failedRound. simpl.
  destruct (client a) as [cl|], (err a) as [e|]; simpl; intros Hfailed;
    try discriminate; by rewrite <- !app_assoc.
Qed.

Lemma connect_connected (config : connectorConfig) (brokers : list string)
    (a : attempt) (attempts : list attempt) (h : Trace) :
  connected a = true →
  ∃ cl, client a = Some cl ∧ err a = None
        ∧ connect config brokers (a :: attempts) h = (h ++ [EvNewClient brokers], Some cl).
Proof.
  unfold connected. simpl.
  destruct (client a) as [cl|], (err a) as [e|]; intros Hconnected;
    try discriminate. by exists cl.
Qed.

(** C7. The connect loop has two outcomes only, none of them fatal.
    Either it has left with a client: some round answered with a non-nil
    client and a nil error, every round before it did not, and each of
    those closed the client it got (when it got one), printed the
    waiting line and slept one second before the next call of
    [sarama.NewClient]. Or no round has connected so far and the loop is
    still going, having done the same in every round. Nothing the loop
    does is an exit or a panic. *)
Theorem connect_retries (config : connectorConfig) (brokers : list string)
    (attempts : list attempt) (h : Trace) :
  match connect config brokers attempts h with
  | (h', Some cl) =>
      ∃ fails a rest,
        attempts = fails ++ a :: rest
        ∧ Forall (λ a, connected a = false) fails
        ∧ client a = Some cl ∧ err a = None
        ∧ h' = h ++ flat_map (failedRound config brokers) fails ++ [EvNewClient brokers]
  | (h', None) =>
      Forall (λ a, connected a = false) attempts
      ∧ h' = h ++ flat_map (failedRound config brokers) attempts
  end
  ∧ ∃ ev, (connect config brokers attempts h).1 = h ++ ev
          ∧ Forall (λ e, exits e = false) ev.
Proof.
  assert (∀ fails, Forall (λ e, exits e = false)
                     (flat_map (failedRound config brokers) fails)) as Hquiet.
  { intros fails. induction fails as [|a fails IH]; [constructor|].
    cbn [flat_map]. apply Forall_app. split; [|done].
    unfold failedRound. destruct (client a); by repeat constructor. }
  assert (match connect config brokers attempts h with
          | (h', Some cl) =>
              ∃ fails a rest,
                attempts = fails ++ a :: rest
                ∧ Forall (λ a, connected a = false) fails
                ∧ client a = Some cl ∧ err a = None
                ∧ h' = h ++ flat_map (failedRound config brokers) fails
                         ++ [EvNewClient brokers]
          | (h', None) =>
              Forall (λ a, connected a = false) attempts
              ∧ h' = h ++ flat_map (failedRound config brokers) attempts
          end) as Hloop.
  { revert h. induction attempts as [|a attempts IH]; intros h.
    - simpl. split; [constructor|by rewrite app_nil_r].
    - destruct (connected a) eqn:Ha.
      + destruct (connect_connected config brokers a attempts h Ha)
          as (cl & Hcl & Herr & ->).
        by exists [], a, attempts.
      + rewrite connect_failed by done.
        specialize (IH (h ++ failedRound config brokers a)).
        destruct (connect _ _ _ _) as [h' [cl|]].
        * destruct IH as (fails & a0 & rest & -> & Hfails & Hcl & Herr & ->).
          exists (a :: fails), a0, rest. cbn [flat_map]. rewrite <- !app_assoc.
          split_and!; [done|by constructor|done..].
        * destruct IH as [Hfails ->]. cbn [flat_map]. rewrite <- app_assoc.
          split; [by constructor|done]. }
  split; [done|].
  destruct (connect config brokers attempts h) as [h' [cl|]]; simpl.
  - destruct Hloop as (fails & a & rest & _ & _ & _ & _ & ->).
    eexists. split; [done|]. apply Forall_app. split; [done|by repeat constructor].
  - destruct Hloop as [_ ->]. by eexists.
Qed.


(** ** The consumer loop and the refresh task *)

(** C9. A configuration built by [buildConnectorConfig] has
    [printResponse] off. Under it no wake-up of the connector adds a log
    line that carries a response body, and the response of an invocation
    is logged with its status code and the name of the function only. *)
Theorem response_body_never_logged (env : environ) (config : connectorConfig) :
  buildConnectorConfig env = Built config →
  printResponse config = false
  ∧ (∀ c p inputs, ∃ ev,
       trace (run config c p inputs) = trace p ++ ev
       ∧ Forall (λ e, logsBody e = false) ev)
  ∧ (∀ c msg matchedFunction h deferred httpReq res body,
       NewRequest "POST" (functionURL config matchedFunction) (Value msg) = Some httpReq →
       Do c (h ++ [EvLog (LogInvoke matchedFunction)]) httpReq = DoRes res →
       ResBody res = Some body →
       last (invoke config c msg matchedFunction h deferred).1.1
       = Some (EvLog (LogResponse (StatusCode res) matchedFunction))).
Proof.
  intros Hbuilt.
  assert (printResponse config = false) as Hprint.
  { destruct (buildConnectorConfig_cases env) as [[_ Heq]|[_ Heq]];
      rewrite Heq in Hbuilt; [done|]. by inversion_clear Hbuilt. }
  split_and!; [done| |].
  - intros c p inputs. destruct (run_events config c p inputs) as (ev & Htrace & Hev).
    exists ev. split; [done|].
    eapply Forall_impl; [done|]. intros e. by apply runEvent_logsBody.
  - intros c msg matchedFunction h deferred httpReq res body Hreq Hdo Hbody.
    unfold invoke. rewrite Hreq, Hdo, Hbody, Hprint. simpl. by rewrite last_snoc.
Qed.

(** C2. Whatever duration [rebuild_interval] parses to, it ends up in
    the dial timeout of the lookup client; the refresh ticker is created
    with a period of three seconds, and it is the only ticker of
    [makeConsumer]. *)
Theorem ticker_period_fixed (env : environ) (val : string) (d : Duration)
    (config : connectorConfig) :
  env !! "rebuild_interval" = Some val →
  ParseDuration val = Some d →
  buildConnectorConfig env = Built config →
  rebuildInterval config = d
  ∧ DialTimeout (lookupClient config) = d
  ∧ tickerPeriod config = Second * 3
  ∧ ∀ brokers inputs h, ∃ ev,
      trace (makeConsumer brokers config None inputs h)
      = h ++ [EvLog (LogBindingTopics (topics config));
              EvNewConsumer brokers group (topics config);
              EvNewTicker (Second * 3)] ++ ev
      ∧ Forall (λ e, ∀ period, e ≠ EvNewTicker period) ev.
Proof.
  intros Hset Hparse Hbuilt.
  assert (rebuildInterval config = d) as Hd.
  { destruct (buildConnectorConfig_cases env) as [[_ Heq]|[_ Heq]];
      rewrite Heq in Hbuilt; [done|]. inversion_clear Hbuilt. simpl.
    unfold durationSetting. by rewrite Hset, Hparse. }
  split_and!; [done|by rewrite <- Hd|done|].
  intros brokers inputs h. unfold makeConsumer.
  destruct (run_events config (makeClient (upstreamTimeout config))
              {| topicMap := types.NewTopicMap; num := 0;
                 trace := (h ++ [EvLog (LogBindingTopics (topics config));
                                 EvNewConsumer brokers group (topics config)])
                          ++ [EvNewTicker (tickerPeriod config)];
                 state := Running |} inputs) as (ev & -> & Hev).
  exists ev. simpl. rewrite <- !app_assoc. split; [done|].
  eapply Forall_impl; [done|]. intros e He period ->. done.
Qed.

(** C6. A message with an empty payload, and a message on a topic
    without subscribers, are received and marked, and nothing else: the
    wake-up prints the message and marks its offset, no request is sent. *)
Theorem nothing_to_dispatch (config : connectorConfig) (c : Client) (p : process)
    (msg : ConsumerMessage) :
  state p = Running →
  Value msg = [] ∨ types.Match (topicMap p) (Topic msg) = ∅ →
  let q := step config c p (Message (Some msg)) in
  trace q = trace p
            ++ [EvPrint (OutReceived (num q) (Topic msg) (Partition msg) (Value msg));
                EvMarkOffset msg ""]
  ∧ requests (trace q) = requests (trace p)
  ∧ marks (trace q) = marks (trace p) ++ [msg]
  ∧ state q = Running.
Proof.
  intros Hrunning Hnothing q.
  assert (mcb config c (topicMap p) msg
            (trace p ++ [EvPrint (OutReceived ((num p + 1) `mod` MaxInt32)
                                    (Topic msg) (Partition msg) (Value msg))])
          = (trace p ++ [EvPrint (OutReceived ((num p + 1) `mod` MaxInt32)
                                    (Topic msg) (Partition msg) (Value msg))], false))
    as Hmcb.
  { unfold mcb. destruct Hnothing as [-> | ->]; [done|].
    rewrite elements_empty. simpl. rewrite app_nil_r. by destruct (0 <? _)%Z. }
  assert (trace q = trace p
            ++ [EvPrint (OutReceived (num q) (Topic msg) (Partition msg) (Value msg));
                EvMarkOffset msg ""] ∧ state q = Running) as [Htrace Hstate].
  { unfold q, step. rewrite Hrunning, Hmcb. simpl. by rewrite <- app_assoc. }
  split_and!; [done| | |done]; rewrite Htrace.
  - unfold requests. rewrite omap_app. simpl. by rewrite app_nil_r.
  - unfold marks. by rewrite omap_app.
Qed.

(** C1. A transport error ends the dispatch of the message: when the
    request to the first matched function fails, [mcb] returns after
    that one request, and the functions after it are not invoked. *)
Theorem transport_error_ends_dispatch (config : connectorConfig) (c : Client)
    (t : types.TopicMap) (msg : ConsumerMessage) (h : Trace)
    (matchedFunction : string) (rest : list string) (httpReq : Request) (doErr : string) :
  Value msg ≠ [] →
  elements (types.Match t (Topic msg)) = matchedFunction :: rest →
  NewRequest "POST" (functionURL config matchedFunction) (Value msg) = Some httpReq →
  Do c (h ++ [EvLog (LogInvoke matchedFunction)]) httpReq = DoErr doErr →
  mcb config c t msg h
  = (h ++ [EvLog (LogInvoke matchedFunction); EvDo c httpReq;
           EvLog (LogInvalidResponse doErr); EvReqBodyClose httpReq], false)
  ∧ requests (mcb config c t msg h).1 = requests h ++ [httpReq].
Proof.
  intros Hpayload Hmatch Hreq Hdo.
  assert (mcb config c t msg h
          = (h ++ [EvLog (LogInvoke matchedFunction); EvDo c httpReq;
                   EvLog (LogInvalidResponse doErr); EvReqBodyClose httpReq], false))
    as Hmcb.
  { unfold mcb. destruct (Value msg) as [|b payload] eqn:Hvalue; [done|].
    replace (0 <? Z.of_nat (length (b :: payload)))%Z with true
      by (symmetry; apply Z.ltb_lt; simpl; lia).
    rewrite Hmatch. simpl. unfold invoke. rewrite Hvalue, Hreq, Hdo.
    by rewrite <- !app_assoc. }
  split; [done|]. rewrite Hmcb. cbn [fst]. unfold requests. by rewrite omap_app.
Qed.

(** C4. When [Build] fails on a tick, the process logs the error and
    exits with status 1. The topic map is the one the earlier wake-ups
    left, [Sync] is not called, and whatever would have come after, a
    tick or a message, is not served. *)
Theorem failed_build_is_fatal (config : connectorConfig) (c : Client) (p : process)
    (before later : list input) (buildErr : string) :
  state (run config c p before) = Running →
  let q := run config c p before in
  run config c p (before ++ Tick (inl buildErr) :: later)
  = {| topicMap := topicMap q; num := num q;
       trace := trace q ++ [EvLog (LogBuildFail buildErr); EvExit 1];
       state := Exited 1 |}.
Proof.
  intros Hrunning q. unfold q. rewrite run_app.
  change (run config c (run config c p before) (Tick (inl buildErr) :: later))
    with (run config c (step config c (run config c p before) (Tick (inl buildErr))) later).
  rewrite run_stopped; unfold step; by rewrite Hrunning.
Qed.


(** ** Marks and dispatches *)

Lemma dispatch_no_mark (config : connectorConfig) (ev : Trace) :
  Forall (dispatchEvent config) ev → Forall (λ e, marked e = None) ev.
Proof.
  intros Hev. eapply Forall_impl; [done|].
  by intros [[]| | | | | | | | | | | | |].
Qed.

Lemma no_mark_marks (ev : Trace) :
  Forall (λ e, marked e = None) ev → marks ev = [].
Proof.
  induction 1 as [|e ev He _ IH]; [done|].
  unfold marks in *. simpl. by rewrite He.
Qed.

(** In a trace that ends in its only mark, the mark is found at the end. *)
Lemma mark_at_end (l pre post : Trace) (x y : Event) :
  Forall (λ e, marked e = None) l →
  marked y ≠ None →
  l ++ [x] = pre ++ y :: post →
  pre = l ∧ y = x ∧ post = [].
Proof.
  intros Hl Hy. revert pre.
  induction Hl as [|e l He _ IH]; intros [|e' pre] Heq; simplify_eq/=; try done.
  - by destruct pre.
  - by destruct (IH pre) as (-> & -> & ->).
Qed.

Lemma no_mark_inside (ev pre post : Trace) (y : Event) :
  Forall (λ e, marked e = None) ev →
  marked y ≠ None →
  ev ≠ pre ++ y :: post.
Proof.
  intros Hev Hy ->. apply Forall_app in Hev as [_ Hev].
  by inversion Hev.
Qed.

(** Where a trace that was extended is cut behind its old part, the cut
    lies in the extension. *)
Lemma cut_in_extension (base ev pre post : Trace) (y : Event) :
  base ++ ev = pre ++ y :: post →
  (length base ≤ length pre)%nat →
  ∃ k, pre = base ++ k ∧ ev = k ++ y :: post.
Proof.
  intros Heq Hlen.
  apply app_eq_inv in Heq as [(k & -> & Hk)|(k & -> & ->)]; [|by eauto].
  rewrite length_app in Hlen. destruct k as [|e k]; [|simpl in Hlen; lia].
  exists []. by rewrite !app_nil_r in *.
Qed.

(** When every URL parses, [mcb] does not panic. *)
Lemma invokeEach_no_panic (config : connectorConfig) (c : Client) (msg : ConsumerMessage)
    (matchedFunctions : list string) (h : Trace) (deferred : list Event) :
  (∀ url, urlParses url = true) →
  (invokeEach config c msg matchedFunctions h deferred).2 ≠ Panic.
Proof.
  intros Hurl. revert h deferred.
  induction matchedFunctions as [|matchedFunction rest IH]; intros h deferred; simpl; [done|].
  destruct (invoke config c msg matchedFunction h deferred) as [[h1 deferred1] fl1] eqn:Hone.
  assert (fl1 ≠ Panic) as Hfl1.
  { revert Hone. unfold invoke, NewRequest. rewrite Hurl.
    destruct (Do _ _ _) as [doErr|res]; [by intros [= <- <- <-]|].
    destruct (ResBody res); by intros [= <- <- <-]. }
  destruct fl1; [apply IH|done..].
Qed.

Lemma mcb_no_panic (config : connectorConfig) (c : Client) (t : types.TopicMap)
    (msg : ConsumerMessage) (h : Trace) :
  (∀ url, urlParses url = true) → (mcb config c t msg h).2 = false.
Proof.
  intros Hurl. unfold mcb. destruct (0 <? _)%Z; [|done].
  pose proof (invokeEach_no_panic config c msg
                (elements (types.Match t (Topic msg))) h [] Hurl) as Hfl.
  destruct (invokeEach _ _ _ _ _ _) as [[h1 deferred1] fl1]. by destruct fl1.
Qed.

(** What one wake-up of a running process does to the marks, and where
    a mark that it adds stands. *)
Lemma step_marks (config : connectorConfig) (c : Client) (p : process) (i : input) :
  state p = Running →
  let q := step config c p i in
  (state q = Running → marks (trace q) = marks (trace p) ++ option_list (received i))
  ∧ (state q ≠ Running → marks (trace q) = marks (trace p))
  ∧ (failedTick i = false → (∀ url, urlParses url = true) → state q = Running)
  ∧ (∀ pre msg metadata post,
       trace q = pre ++ EvMarkOffset msg metadata :: post →
       (length (trace p) ≤ length pre)%nat →
       ∃ n, mcb config c (topicMap p) msg
              (trace p ++ [EvPrint (OutReceived n (Topic msg) (Partition msg) (Value msg))])
            = (pre, false)).
Proof.
  intros Hrunning q. unfold q, step. rewrite Hrunning.
  assert (∀ ev pre msg metadata post,
            Forall (λ e, marked e = None) ev →
            trace p ++ ev = pre ++ EvMarkOffset msg metadata :: post →
            (length (trace p) ≤ length pre)%nat → False) as Hnone.
  { intros ev pre msg metadata post Hev Heq Hlen.
    apply cut_in_extension in Heq as (k & -> & Hk); [|done].
    by eapply no_mark_inside in Hk. }
  destruct i as [[buildErr|lookups]|[msg0|]|consumerErr|ntf]; simpl.
  - split_and!; [done| |done|].
    + intros _. unfold marks. rewrite omap_app. simpl. by rewrite app_nil_r.
    + intros pre msg metadata post Heq Hlen. exfalso.
      eapply Hnone; [|done..]. by repeat constructor.
  - split_and!; [|done|done|].
    + intros _. unfold marks. rewrite omap_app. simpl. by rewrite app_nil_r.
    + intros pre msg metadata post Heq Hlen. exfalso.
      eapply Hnone; [|done..]. by repeat constructor.
  - pose proof (mcb_no_panic config c (topicMap p) msg0
                  (trace p ++ [EvPrint (OutReceived ((num p + 1) `mod` MaxInt32)
                                          (Topic msg0) (Partition msg0) (Value msg0))]))
      as Hpanic.
    destruct (mcb _ _ _ _ _) as [h' panicked] eqn:Hmcb.
    pose proof Hmcb as (ev & -> & Hev%dispatch_no_mark)%mcb_events.
    destruct panicked; simpl.
    + split_and!; [done| | |].
      * intros _. unfold marks. rewrite !omap_app. simpl.
        fold (marks ev). rewrite (no_mark_marks ev) by done. by rewrite !app_nil_r.
      * intros _ Hurl. by specialize (Hpanic Hurl).
      * intros pre msg metadata post Heq Hlen. exfalso.
        rewrite <- !app_assoc in Heq. eapply Hnone; [|done..].
        constructor; [done|]. apply Forall_app. split; [done|]. by repeat constructor.
    + split_and!; [|done|done|].
      * intros _. unfold marks. rewrite !omap_app. simpl.
        fold (marks ev). rewrite (no_mark_marks ev) by done. by rewrite !app_nil_r.
      * intros pre msg metadata post Heq Hlen.
        rewrite <- !app_assoc in Heq.
        apply cut_in_extension in Heq as (k & -> & Hk); [|done].
        change ((EvPrint (OutReceived ((num p + 1) `mod` MaxInt32)
                            (Topic msg0) (Partition msg0) (Value msg0)) :: ev)
                ++ [EvMarkOffset msg0 ""] = k ++ EvMarkOffset msg metadata :: post) in Hk.
        apply mark_at_end in Hk as (-> & [= -> ->] & ->); [|by constructor|done].
        exists ((num p + 1) `mod` MaxInt32). rewrite Hmcb.
        by rewrite <- !app_assoc.
  - rewrite app_nil_r. split_and!; [done..|].
    intros pre msg metadata post Heq Hlen. exfalso.
    eapply (Hnone []); [done| |done]. by rewrite app_nil_r.
  - split_and!; [|done|done|].
    + intros _. unfold marks. rewrite omap_app. simpl. by rewrite app_nil_r.
    + intros pre msg metadata post Heq Hlen. exfalso.
      eapply Hnone; [|done..]. by repeat constructor.
  - split_and!; [|done|done|].
    + intros _. unfold marks. rewrite omap_app. simpl. by rewrite app_nil_r.
    + intros pre msg metadata post Heq Hlen. exfalso.
      eapply Hnone; [|done..]. by repeat constructor.
Qed.


Lemma received_cons (i : input) (inputs : list input) :
  omap received (i :: inputs) = option_list (received i) ++ omap received inputs.
Proof. simpl. by destruct (received i). Qed.

(** ** A dispatch without transport errors *)

(** The request [mcb] builds for a function. *)
Lemma NewRequest_parses (url : string) (body : list Byte.byte) :
  urlParses url = true →
  NewRequest "POST" url body
  = Some {| Method := "POST"; URL := url; Header := []; Body := body |}.
Proof. intros Hurl. unfold NewRequest. by rewrite Hurl. Qed.

Lemma invoke_requests (config : connectorConfig) (c : Client) (msg : ConsumerMessage)
    (fn : string) (h : Trace) (deferred : list Event) :
  urlParses (functionURL config fn) = true →
  (∀ h' httpReq, ∃ res, Do c h' httpReq = DoRes res) →
  ∃ h' deferred',
    invoke config c msg fn h deferred = (h', deferred', Next)
    ∧ requests h' = requests h
        ++ [ {| Method := "POST"; URL := functionURL config fn;
                Header := []; Body := Value msg |} ]
    ∧ requests deferred' = requests deferred.
Proof.
  intros Hurl Hdo. unfold invoke. rewrite NewRequest_parses by done.
  destruct (Hdo (h ++ [EvLog (LogInvoke fn)])
              {| Method := "POST"; URL := functionURL config fn;
                 Header := []; Body := Value msg |}) as [res ->].
  destruct (ResBody res) as [body|]; [destruct (printResponse config), (readErr body)|];
    eexists _, _; (split; [reflexivity|]); unfold requests;
    rewrite !omap_app; simpl; by rewrite ?app_nil_r.
Qed.

Lemma invokeEach_requests (config : connectorConfig) (c : Client) (msg : ConsumerMessage)
    (matchedFunctions : list string) (h : Trace) (deferred : list Event) :
  Forall (λ fn, urlParses (functionURL config fn) = true) matchedFunctions →
  (∀ h' httpReq, ∃ res, Do c h' httpReq = DoRes res) →
  ∃ h' deferred',
    invokeEach config c msg matchedFunctions h deferred = (h', deferred', Next)
    ∧ requests h' = requests h
        ++ map (λ fn, {| Method := "POST"; URL := functionURL config fn;
                         Header := []; Body := Value msg |}) matchedFunctions
    ∧ requests deferred' = requests deferred.
Proof.
  intros Hurl Hdo. revert h deferred.
  induction Hurl as [|fn rest Hfn _ IH]; intros h deferred.
  - exists h, deferred. simpl. by rewrite app_nil_r.
  - cbn [invokeEach map].
    destruct (invoke_requests config c msg fn h deferred Hfn Hdo)
      as (h1 & deferred1 & -> & Hh1 & Hdeferred1).
    destruct (IH h1 deferred1) as (h' & deferred' & -> & Hh' & Hdeferred').
    exists h', deferred'. split; [done|].
    by rewrite Hh', Hh1, Hdeferred', Hdeferred1, <- app_assoc.
Qed.

(** When the URLs of the matched functions parse and no request meets a
    transport error, [mcb] sends one POST per matched function, to the
    function's URL under the gateway and with the payload of the message
    as its body, and does not panic. *)
Lemma mcb_invokes_each (config : connectorConfig) (c : Client) (t : types.TopicMap)
    (msg : ConsumerMessage) (h : Trace) :
  Value msg ≠ [] →
  (∀ fn, fn ∈ types.Match t (Topic msg) → urlParses (functionURL config fn) = true) →
  (∀ h' httpReq, ∃ res, Do c h' httpReq = DoRes res) →
  requests (mcb config c t msg h).1
  = requests h
    ++ map (λ fn, {| Method := "POST"; URL := functionURL config fn;
                     Header := []; Body := Value msg |})
         (elements (types.Match t (Topic msg)))
  ∧ (mcb config c t msg h).2 = false.
Proof.
  intros Hpayload Hurl Hdo. unfold mcb.
  replace (0 <? Z.of_nat (length (Value msg)))%Z with true.
  2:{ symmetry. apply Z.ltb_lt. destruct (Value msg); [done|simpl; lia]. }
  assert (Forall (λ fn, urlParses (functionURL config fn) = true)
            (elements (types.Match t (Topic msg)))) as Hall.
  { apply Forall_forall. intros fn Hfn. by apply Hurl, elem_of_elements. }
  destruct (invokeEach_requests config c msg (elements (types.Match t (Topic msg)))
              h [] Hall Hdo) as (h' & deferred' & -> & Hh' & Hdeferred').
  cbn [fst snd]. split; [|done].
  unfold requests in *. rewrite omap_app, Hh', Hdeferred'. simpl.
  by rewrite app_nil_r.
Qed.

(** X16. When the URLs of the two subscribers A and B of a topic parse
    and no request meets a transport error, whatever the status codes
    and the reads of the bodies, a message with a payload on that topic
    gets exactly two requests, one to A and one to B, in the order in
    which the set is ranged over, and [mcb] returns without a panic. This
    holds after whatever the process did before. *)
Lemma mcb_invokes_both (config : connectorConfig) (c : Client) (t : types.TopicMap)
    (msg : ConsumerMessage) (h : Trace) (A B : string) :
  Value msg ≠ [] →
  urlParses (functionURL config A) = true →
  urlParses (functionURL config B) = true →
  (∀ h' httpReq, ∃ res, Do c h' httpReq = DoRes res) →
  A ≠ B →
  types.Match t (Topic msg) = {[ A; B ]} →
  (∃ sent,
     requests (mcb config c t msg h).1 = requests h ++ sent
     ∧ sent ≡ₚ [ {| Method := "POST"; URL := functionURL config A;
                    Header := []; Body := Value msg |};
                 {| Method := "POST"; URL := functionURL config B;
                    Header := []; Body := Value msg |} ])
  ∧ (mcb config c t msg h).2 = false.
Proof.
  intros Hpayload HA HB Hdo HAB Hmatch.
  assert (∀ fn, fn ∈ types.Match t (Topic msg) →
                urlParses (functionURL config fn) = true) as Hurl.
  { intros fn. rewrite Hmatch.
    intros [->%elem_of_singleton| ->%elem_of_singleton]%elem_of_union; done. }
  destruct (mcb_invokes_each config c t msg h Hpayload Hurl Hdo) as [Hsent Hreturn].
  split; [|done]. eexists. split; [exact Hsent|].
  rewrite Hmatch.
  assert (elements ({[ A; B ]} : gset string) ≡ₚ [A; B]) as ->; [|done].
  rewrite elements_union_singleton by set_solver.
  by rewrite elements_singleton.
Qed.


(** ** The shape of a dispatch *)

(** What one round of the loop of [mcb] adds to the trace and to the
    deferred calls. *)
Lemma invoke_shape (config : connectorConfig) (c : Client) (msg : ConsumerMessage)
    (fn : string) (h h' : Trace) (deferred deferred' : list Event) (fl : flow) :
  invoke config c msg fn h deferred = (h', deferred', fl) →
  ∃ ev dd,
    h' = h ++ ev ∧ deferred' = dd ++ deferred
    ∧ Forall (λ e, closes e = false) ev ∧ Forall (λ e, closes e = true) dd
    ∧ omap closedRequest dd = reverse (requests ev)
    ∧ requests ev = match fl with
                    | Panic => []
                    | _ => [invocation config (Value msg) fn]
                    end
    ∧ (fl = Panic ↔ urlParses (functionURL config fn) = false)
    ∧ Forall (λ e, ∀ c' httpReq, e = EvDo c' httpReq → c' = c) ev.
Proof.
  unfold invoke, NewRequest, invocation.
  destruct (urlParses (functionURL config fn)) eqn:Hurl.
  2:{ intros [= <- <- <-]. eexists _, []. split; [reflexivity|].
      split_and!; try done; repeat constructor; intros; by simplify_eq. }
  destruct (Do _ _ _) as [doErr|res].
  { intros [= <- <- <-]. eexists _, [_]. rewrite <- !app_assoc.
    split; [reflexivity|].
    split_and!; try done; repeat constructor; intros; by simplify_eq. }
  destruct (ResBody res) as [body|].
  2:{ intros [= <- <- <-]. eexists _, [_]. rewrite <- !app_assoc.
      split; [reflexivity|].
      split_and!; try done; repeat constructor; intros; by simplify_eq. }
  destruct (readErr body), (printResponse config); intros [= <- <- <-];
    eexists _, [_; _]; rewrite <- !app_assoc; (split; [reflexivity|]);
    (split_and!; try done; repeat constructor; intros; by simplify_eq).
Qed.

Lemma invokeEach_shape (config : connectorConfig) (c : Client) (msg : ConsumerMessage)
    (fns : list string) (h h' : Trace) (deferred deferred' : list Event) (fl : flow) :
  invokeEach config c msg fns h deferred = (h', deferred', fl) →
  ∃ ev dd k,
    h' = h ++ ev ∧ deferred' = dd ++ deferred
    ∧ Forall (λ e, closes e = false) ev ∧ Forall (λ e, closes e = true) dd
    ∧ omap closedRequest dd = reverse (requests ev)
    ∧ requests ev = map (invocation config (Value msg)) (take k fns)
    ∧ (fl = Next → requests ev = map (invocation config (Value msg)) fns)
    ∧ Forall (λ e, ∀ c' httpReq, e = EvDo c' httpReq → c' = c) ev.
Proof.
  revert h deferred.
  induction fns as [|fn rest IH]; intros h deferred; simpl.
  - intros [= <- <- <-]. exists [], [], 0%nat. rewrite app_nil_r.
    split_and!; by try constructor.
  - destruct (invoke config c msg fn h deferred) as [[h1 deferred1] fl1] eqn:Hone.
    apply invoke_shape in Hone
      as (ev1 & dd1 & -> & -> & Hev1 & Hdd1 & Hcl1 & Hreq1 & _ & Hc1).
    destruct fl1.
    + intros (ev & dd & k & -> & -> & Hev & Hdd & Hcl & Hreq & Hall & Hc)%IH.
      exists (ev1 ++ ev), (dd ++ dd1), (S k). rewrite <- !app_assoc.
      split_and!; try done; try by apply Forall_app.
      * rewrite omap_app, Hcl, Hcl1. unfold requests.
        by rewrite omap_app, reverse_app.
      * unfold requests in *. by rewrite omap_app, Hreq1, Hreq.
      * intros Hnext. unfold requests in *. by rewrite omap_app, Hreq1, Hall.
    + intros [= <- <- <-]. exists ev1, dd1, 1%nat. cbn [take map].
      rewrite take_0. by split_and!.
    + intros [= <- <- <-]. exists ev1, dd1, 0%nat. by split_and!.
Qed.

Lemma mcb_shape (config : connectorConfig) (c : Client) (t : types.TopicMap)
    (msg : ConsumerMessage) (h : Trace) :
  ∃ ev dd k,
    (mcb config c t msg h).1 = h ++ ev ++ dd
    ∧ Forall (λ e, closes e = false) ev ∧ Forall (λ e, closes e = true) dd
    ∧ omap closedRequest dd = reverse (requests ev)
    ∧ requests (ev ++ dd)
      = map (invocation config (Value msg)) (take k (elements (types.Match t (Topic msg))))
    ∧ (Value msg = [] → ev ++ dd = [])
    ∧ Forall (λ e, ∀ c' httpReq, e = EvDo c' httpReq → c' = c) (ev ++ dd).
Proof.
  unfold mcb. destruct (Value msg) as [|b payload] eqn:Hvalue.
  { exists [], [], 0%nat. simpl. rewrite app_nil_r. split_and!; by try constructor. }
  replace (0 <? Z.of_nat (length (b :: payload)))%Z with true
    by (symmetry; apply Z.ltb_lt; simpl; lia).
  destruct (invokeEach _ _ _ _ _ _) as [[h1 deferred1] fl1] eqn:Hall.
  apply invokeEach_shape in Hall
    as (ev & dd & k & -> & -> & Hev & Hdd & Hcl & Hreq & _ & Hc).
  rewrite Hvalue in Hreq. rewrite app_nil_r.
  assert (requests dd = []) as Hnone.
  { clear -Hdd. induction Hdd as [|e dd He _ IH]; [done|].
    destruct e; try discriminate He; exact IH. }
  exists ev, dd, k.
  assert ((if fl1 is Panic then (h ++ ev ++ dd, true) else (h ++ ev ++ dd, false)).1
          = h ++ ev ++ dd) as Hfst by by destruct fl1.
  split_and!; try done.
  - destruct fl1; simpl; by rewrite <- app_assoc.
  - unfold requests in *. by rewrite omap_app, Hnone, app_nil_r.
  - apply Forall_app. split; [done|].
    eapply Forall_impl; [done|]. by intros e He c' httpReq ->.
Qed.


Lemma append_inj (s a b : string) : s +:+ a = s +:+ b → a = b.
Proof. induction s as [|ch s IH]; simpl; [done|]. intros [= Heq]. by apply IH. Qed.

Lemma invocation_inj (config : connectorConfig) (payload : list Byte.byte) (a b : string) :
  invocation config payload a = invocation config payload b → a = b.
Proof.
  unfold invocation, functionURL. intros [= Heq].
  by apply append_inj, append_inj in Heq.
Qed.

(** X1. For one message [mcb] goes through the matched functions in the
    order of the range and sends each of them at most one request: the
    requests it adds are the invocations of an initial part of the
    matched functions, without repetition, whatever the gateway answers
    and also when it panics. *)
Theorem dispatch_in_range_order (config : connectorConfig) (c : Client)
    (t : types.TopicMap) (msg : ConsumerMessage) (h : Trace) :
  ∃ k,
    requests (mcb config c t msg h).1
    = requests h
      ++ map (invocation config (Value msg)) (take k (elements (types.Match t (Topic msg))))
    ∧ NoDup (map (invocation config (Value msg))
               (take k (elements (types.Match t (Topic msg))))).
Proof.
  destruct (mcb_shape config c t msg h) as (ev & dd & k & -> & _ & _ & _ & Hreq & _).
  exists k. split.
  - unfold requests in *. by rewrite omap_app, Hreq.
  - change (NoDup (invocation config (Value msg)
                     <$> take k (elements (types.Match t (Topic msg))))).
    apply NoDup_fmap_2_strong.
    + intros a b _ _. apply invocation_inj.
    + apply (sublist_NoDup _ (elements (types.Match t (Topic msg))));
        [apply NoDup_elements|apply sublist_take].
Qed.

(** X2. Every request body that [mcb] opens is closed when [mcb]
    returns and not before: what a run of [mcb] adds to the trace is the
    work of the loop, which closes nothing, followed by the deferred
    closes alone, and the request bodies are closed latest first, one
    close for each request sent. *)
Theorem bodies_closed_on_return (config : connectorConfig) (c : Client)
    (t : types.TopicMap) (msg : ConsumerMessage) (h : Trace) :
  ∃ ev dd,
    (mcb config c t msg h).1 = h ++ ev ++ dd
    ∧ Forall (λ e, closes e = false) ev
    ∧ Forall (λ e, closes e = true) dd
    ∧ omap closedRequest dd = reverse (requests ev).
Proof.
  destruct (mcb_shape config c t msg h) as (ev & dd & k & Hmcb & Hev & Hdd & Hcl & _).
  by exists ev, dd.
Qed.

(** What one wake-up sends, and through which client. *)
Lemma step_requests (config : connectorConfig) (c : Client) (p : process) (i : input) :
  ∃ ev, trace (step config c p i) = trace p ++ ev
        ∧ Forall (λ r, ∃ msg fn, i = Message (Some msg) ∧ Value msg ≠ []
                                 ∧ r = invocation config (Value msg) fn) (requests ev)
        ∧ Forall (λ e, ∀ c' httpReq, e = EvDo c' httpReq → c' = c) ev.
Proof.
  unfold step. destruct (state p);
    try by (exists []; rewrite app_nil_r; split_and!; [done|constructor..]).
  destruct i as [[buildErr|lookups]|[msg|]|consumerErr|ntf]; simpl;
    try by (eexists; split_and!; [done|constructor|by repeat constructor]).
  - set (line := EvPrint (OutReceived ((num p + 1) `mod` MaxInt32)
                            (Topic msg) (Partition msg) (Value msg))).
    destruct (mcb_shape config c (topicMap p) msg (trace p ++ [line]))
      as (ev & dd & k & Hmcb & _ & _ & _ & Hreq & Hempty & Hc).
    destruct (mcb _ _ _ _ _) as [h' panicked]. simpl in Hmcb. subst h'.
    assert (Forall (λ r, ∃ msg0 fn, Message (Some msg) = Message (Some msg0)
                                    ∧ Value msg0 ≠ []
                                    ∧ r = invocation config (Value msg0) fn)
              (requests (ev ++ dd))) as Hshape.
    { destruct (Value msg) as [|b payload] eqn:Hvalue.
      - rewrite Hempty by done. constructor.
      - rewrite Hreq. change (map ?f ?l) with (f <$> l). apply Forall_fmap, Forall_true.
        intros fn. exists msg, fn. by rewrite Hvalue. }
    assert (∀ tail, requests tail = [] →
              Forall (λ e, ∀ c' httpReq, e = EvDo c' httpReq → c' = c) tail →
              ∃ ev0, ((trace p ++ [line]) ++ ev ++ dd) ++ tail = trace p ++ ev0
                     ∧ Forall (λ r, ∃ msg0 fn, Message (Some msg) = Message (Some msg0)
                                               ∧ Value msg0 ≠ []
                                               ∧ r = invocation config (Value msg0) fn)
                         (requests ev0)
                     ∧ Forall (λ e, ∀ c' httpReq, e = EvDo c' httpReq → c' = c) ev0)
      as Hstep.
    { intros tail Htail Hctail. exists ([line] ++ (ev ++ dd) ++ tail).
      split; [by rewrite <- !app_assoc|]. split.
      - unfold requests in *.
        rewrite (omap_app _ [line]), (omap_app _ (ev ++ dd)), Htail, app_nil_r.
        exact Hshape.
      - apply Forall_app. split; [by repeat constructor|]. by apply Forall_app. }
    destruct panicked; simpl; apply Hstep; try done; by repeat constructor.
  - exists []. rewrite app_nil_r. split_and!; [done|constructor..].
Qed.

Lemma run_requests (config : connectorConfig) (c : Client) (p : process)
    (inputs : list input) :
  ∃ ev, trace (run config c p inputs) = trace p ++ ev
        ∧ Forall (λ r, ∃ msg fn, Message (Some msg) ∈ inputs ∧ Value msg ≠ []
                                 ∧ r = invocation config (Value msg) fn) (requests ev)
        ∧ Forall (λ e, ∀ c' httpReq, e = EvDo c' httpReq → c' = c) ev.
Proof.
  revert p. induction inputs as [|i inputs IH]; intros p; simpl.
  - exists []. rewrite app_nil_r. split_and!; [done|constructor..].
  - destruct (IH (step config c p i)) as (ev2 & -> & Hev2 & Hc2).
    destruct (step_requests config c p i) as (ev1 & -> & Hev1 & Hc1).
    exists (ev1 ++ ev2). rewrite <- app_assoc. split_and!; [done| |by apply Forall_app].
    unfold requests. rewrite omap_app. apply Forall_app. split.
    + eapply Forall_impl; [exact Hev1|].
      intros r (msg & fn & -> & Hvalue & ->). exists msg, fn. split; [by left|done].
    + eapply Forall_impl; [exact Hev2|].
      intros r (msg & fn & Hin & Hvalue & ->). exists msg, fn. split; [by right|done].
Qed.

(** X3. Every HTTP request the connector sends while it serves its
    inputs is the invocation of a function for a message it received: a
    POST without headers to the function's URL under the gateway, its
    body the payload of that message, which is not empty. *)
Theorem requests_are_invocations (config : connectorConfig) (c : Client) (p : process)
    (inputs : list input) :
  ∃ ev, trace (run config c p inputs) = trace p ++ ev
        ∧ Forall (λ r, ∃ msg fn, Message (Some msg) ∈ inputs ∧ Value msg ≠ []
                                 ∧ r = {| Method := "POST";
                                          URL := gatewayURL config +:+ "/function/" +:+ fn;
                                          Header := []; Body := Value msg |})
            (requests ev).
Proof.
  destruct (run_requests config c p inputs) as (ev & Htrace & Hev & _).
  by exists ev.
Qed.


(** ** The panic of a nil request *)

Lemma invokeEach_panics (config : connectorConfig) (c : Client) (msg : ConsumerMessage)
    (fns : list string) (h : Trace) (deferred : list Event) :
  (∀ h' httpReq, ∃ res, Do c h' httpReq = DoRes res) →
  (invokeEach config c msg fns h deferred).2 = Panic
  ↔ ∃ fn, fn ∈ fns ∧ urlParses (functionURL config fn) = false.
Proof.
  intros Hdo. revert h deferred.
  induction fns as [|fn rest IH]; intros h deferred; simpl.
  - split; [done|]. intros (fn & Hin & _). by apply elem_of_nil in Hin.
  - destruct (invoke config c msg fn h deferred) as [[h1 deferred1] fl1] eqn:Hone.
    pose proof Hone as (_ & _ & _ & _ & _ & _ & _ & _ & Hpanic & _)%invoke_shape.
    destruct fl1; simpl.
    + rewrite IH. split.
      * intros (fn' & Hin & Hurl). exists fn'. split; [by right|done].
      * intros (fn' & [->|Hin]%elem_of_cons & Hurl); [|by eauto].
        by apply Hpanic in Hurl.
    + exfalso. revert Hone. unfold invoke.
      destruct (NewRequest _ _ _) as [httpReq|]; [|done].
      destruct (Hdo (h ++ [EvLog (LogInvoke fn)]) httpReq) as [res ->].
      by destruct (ResBody res).
    + split; [|done]. intros _. exists fn. split; [by left|]. by apply Hpanic.
Qed.

(** X4. While the gateway answers every request, a message makes the
    process panic exactly when its payload is not empty and the URL of
    one of the matched functions does not parse ([http.NewRequest]
    returns a nil request, which [mcb] dereferences). The process then
    ends with exit status 2 and the offset of the message is not
    marked. *)
Theorem nil_request_panics (config : connectorConfig) (c : Client) (p : process)
    (msg : ConsumerMessage) :
  state p = Running →
  (∀ h httpReq, ∃ res, Do c h httpReq = DoRes res) →
  let q := step config c p (Message (Some msg)) in
  (state q = Panicked
   ↔ Value msg ≠ []
     ∧ ∃ fn, fn ∈ types.Match (topicMap p) (Topic msg)
             ∧ urlParses (functionURL config fn) = false)
  ∧ (state q = Panicked →
     marks (trace q) = marks (trace p) ∧ last (trace q) = Some (EvExit 2))
  ∧ (state q ≠ Panicked →
     state q = Running ∧ marks (trace q) = marks (trace p) ++ [msg]).
Proof.
  intros Hrunning Hdo q.
  destruct (step_marks config c p (Message (Some msg)) Hrunning)
    as (Hserved & Hstopped & _ & _).
  fold q in Hserved, Hstopped.
  assert (state q = Panicked
          ↔ (mcb config c (topicMap p) msg
               (trace p ++ [EvPrint (OutReceived ((num p + 1) `mod` MaxInt32)
                                       (Topic msg) (Partition msg) (Value msg))])).2
            = true) as Hstate.
  { unfold q, step. rewrite Hrunning. destruct (mcb _ _ _ _ _) as [h' []]; by simpl. }
  assert (state q = Panicked → last (trace q) = Some (EvExit 2)) as Hlast.
  { unfold q, step. rewrite Hrunning.
    destruct (mcb _ _ _ _ _) as [h' []]; simpl; [|done]. intros _.
    change (h' ++ [EvPanic; EvExit 2]) with (h' ++ [EvPanic] ++ [EvExit 2]).
    by rewrite app_assoc, last_snoc. }
  assert (state q ≠ Panicked → state q = Running) as Helse.
  { unfold q, step. rewrite Hrunning. by destruct (mcb _ _ _ _ _) as [h' []]. }
  split_and!.
  - rewrite Hstate. unfold mcb.
    destruct (Value msg) as [|b payload] eqn:Hvalue.
    { simpl. split; [done|]. by intros [? _]. }
    replace (0 <? Z.of_nat (length (b :: payload)))%Z with true
      by (symmetry; apply Z.ltb_lt; simpl; lia).
    pose proof (invokeEach_panics config c msg
                  (elements (types.Match (topicMap p) (Topic msg)))
                  (trace p ++ [EvPrint (OutReceived ((num p + 1) `mod` MaxInt32)
                                          (Topic msg) (Partition msg) (Value msg))])
                  [] Hdo) as Hpanics.
    rewrite Hvalue in Hpanics.
    destruct (invokeEach _ _ _ _ _ _) as [[h1 deferred1] fl1]. simpl in Hpanics.
    setoid_rewrite elem_of_elements in Hpanics.
    destruct fl1; simpl.
    + split; [done|]. intros [_ Hex]. by apply Hpanics in Hex.
    + split; [done|]. intros [_ Hex]. by apply Hpanics in Hex.
    + split; [|done]. intros _. split; [done|]. by apply Hpanics.
  - intros Hq. split; [|by apply Hlast]. apply Hstopped. by rewrite Hq.
  - intros Hq. split; [by apply Helse|]. by apply Hserved, Helse.
Qed.

(** ** The counter, the idle wake-ups, the topic map *)

Lemma step_num (config : connectorConfig) (c : Client) (p : process) (i : input) :
  state p = Running →
  num (step config c p i)
  = (num p + Z.of_nat (length (option_list (received i)))) `mod` MaxInt32
  ∨ (received i = None ∧ num (step config c p i) = num p).
Proof.
  intros Hrunning. unfold step. rewrite Hrunning.
  destruct i as [[buildErr|lookups]|[msg|]|consumerErr|ntf]; simpl; try by right.
  left. by destruct (mcb _ _ _ _ _) as [h' []].
Qed.

(** X5. The message counter of the consumer loop stays within
    [0, MaxInt32): it counts the messages received modulo [MaxInt32],
    and the other wake-ups leave it alone. *)
Theorem counter_wraps (config : connectorConfig) (c : Client) (p : process)
    (inputs : list input) :
  state p = Running →
  0 ≤ num p < MaxInt32 →
  let q := run config c p inputs in
  0 ≤ num q < MaxInt32
  ∧ (state q = Running →
     num q = (num p + Z.of_nat (length (omap received inputs))) `mod` MaxInt32).
Proof.
  revert p. induction inputs as [|i inputs IH]; intros p Hrunning Hnum q.
  { unfold q. simpl. split; [done|]. intros _.
    by rewrite Z.add_0_r, Z.mod_small. }
  change q with (run config c (step config c p i) inputs).
  assert (0 ≤ num (step config c p i) < MaxInt32
          ∧ num (step config c p i)
            = (num p + Z.of_nat (length (option_list (received i)))) `mod` MaxInt32)
    as [Hbound Hstep].
  { destruct (step_num config c p i Hrunning) as [Heq|[Hnone Heq]].
    - rewrite Heq. split; [|done]. by apply Z.mod_pos_bound.
    - rewrite Heq, Hnone. simpl. by rewrite Z.add_0_r, Z.mod_small. }
  destruct (decide (state (step config c p i) = Running)) as [Hnext|Hnext].
  - destruct (IH _ Hnext Hbound) as [Hq Hcount]. split; [done|].
    intros Hstate. rewrite Hcount, Hstep, received_cons, length_app, Nat2Z.inj_add by done.
    rewrite Zplus_mod_idemp_l. f_equal. lia.
  - rewrite run_stopped by done. split; [done|]. intros Hstate. by destruct Hnext.
Qed.

(** X6. Consumer errors, rebalance notifications and receives on the
    closed message channel are printed (the latter not even that) and
    change nothing else: the loop goes on, with the same topic map and
    counter, and no offset is marked and no request sent. *)
Theorem idle_wakeups_only_print (config : connectorConfig) (c : Client) (p : process)
    (inputs : list input) :
  state p = Running →
  Forall (λ i, idle i = true) inputs →
  run config c p inputs
  = {| topicMap := topicMap p; num := num p;
       trace := trace p ++ flat_map printed inputs; state := Running |}
  ∧ marks (flat_map printed inputs) = []
  ∧ requests (flat_map printed inputs) = [].
Proof.
  intros Hrunning Hidle. split_and!.
  - revert p Hrunning. induction Hidle as [|i inputs Hi _ IH]; intros p Hrunning.
    + simpl. rewrite app_nil_r. destruct p. simpl in Hrunning. by subst.
    + change (run config c p (i :: inputs))
        with (run config c (step config c p i) inputs).
      assert (step config c p i
              = {| topicMap := topicMap p; num := num p;
                   trace := trace p ++ printed i; state := Running |}) as ->.
      { unfold step. rewrite Hrunning.
        destruct i as [[buildErr|lookups]|[msg|]|consumerErr|ntf]; try done.
        simpl. rewrite app_nil_r. destruct p. simpl in Hrunning. by subst. }
      rewrite IH by done. simpl. by rewrite <- app_assoc.
  - induction Hidle as [|i inputs Hi _ IH]; [done|].
    cbn [flat_map]. unfold marks in *. rewrite omap_app, IH.
    by destruct i as [[|]|[|]| |].
  - induction Hidle as [|i inputs Hi _ IH]; [done|].
    cbn [flat_map]. unfold requests in *. rewrite omap_app, IH.
    by destruct i as [[|]|[|]| |].
Qed.

(** X7. Only the refresh task writes the topic map: while the process
    runs, the map is the one it started with, synced in turn with the
    lookups of every tick whose [Build] succeeded. Messages, consumer
    errors and notifications do not touch it. *)
Theorem topic_map_follows_ticks (config : connectorConfig) (c : Client) (p : process)
    (inputs : list input) :
  state p = Running →
  state (run config c p inputs) = Running →
  topicMap (run config c p inputs) = foldl types.Sync (topicMap p) (omap built inputs).
Proof.
  revert p. induction inputs as [|i inputs IH]; intros p Hrunning Hq; [done|].
  change (run config c p (i :: inputs))
    with (run config c (step config c p i) inputs) in *.
  destruct (decide (state (step config c p i) = Running)) as [Hnext|Hnext].
  - rewrite IH by done. unfold step. rewrite Hrunning.
    destruct i as [[buildErr|lookups]|[msg|]|consumerErr|ntf]; simpl; try done.
    by destruct (mcb _ _ _ _ _) as [h' []].
  - rewrite run_stopped in Hq by done. by destruct Hnext.
Qed.


(** ** How a run ends *)

Lemma runEvent_dispatch_exits (config : connectorConfig) (ev : Trace) :
  Forall (dispatchEvent config) ev → Forall (λ e, exits e = false) ev.
Proof.
  intros Hev. eapply Forall_impl; [done|].
  by intros [[]| | | | | | | | | | | | |].
Qed.

Lemma step_end (config : connectorConfig) (c : Client) (p : process) (i : input) :
  state p = Running →
  ∃ ev, Forall (λ e, exits e = false) ev
        ∧ match state (step config c p i) with
          | Running => trace (step config c p i) = trace p ++ ev
          | Exited code =>
              code = 1 ∧
              ∃ buildErr, i = Tick (inl buildErr)
                ∧ trace (step config c p i)
                  = trace p ++ ev ++ [EvLog (LogBuildFail buildErr); EvExit 1]
          | Panicked =>
              (∃ msg, i = Message (Some msg))
              ∧ trace (step config c p i) = trace p ++ ev ++ [EvPanic; EvExit 2]
          | Connecting => False
          end.
Proof.
  intros Hrunning. unfold step. rewrite Hrunning.
  destruct i as [[buildErr|lookups]|[msg|]|consumerErr|ntf]; simpl.
  - exists []. split; [constructor|]. split; [done|]. by exists buildErr.
  - eexists. split; [|done]. by repeat constructor.
  - set (line := EvPrint (OutReceived ((num p + 1) `mod` MaxInt32)
                            (Topic msg) (Partition msg) (Value msg))).
    destruct (mcb _ _ _ _ _) as [h' panicked] eqn:Hmcb.
    apply mcb_events in Hmcb as (ev & -> & Hev%runEvent_dispatch_exits).
    destruct panicked; simpl.
    + exists (line :: ev). split; [by constructor|]. split; [by eauto|].
      by rewrite <- !app_assoc.
    + exists (line :: ev ++ [EvMarkOffset msg ""]). split; [|by rewrite <- !app_assoc].
      constructor; [done|]. apply Forall_app. split; [done|]. by repeat constructor.
  - rewrite Hrunning. exists []. split; [constructor|]. by rewrite app_nil_r.
  - eexists. split; [|done]. by repeat constructor.
  - eexists. split; [|done]. by repeat constructor.
Qed.

(** X8. A run of a running connector ends in one of three ways. It is
    still running, and nothing it did was an exit or a panic. Or it
    exited with status 1, the last thing it did being the fatal log of a
    failed [Build] on a tick. Or it panicked on a message and exited
    with status 2. In both cases nothing follows the exit, whatever
    inputs were still to come. *)
Theorem exit_is_final (config : connectorConfig) (c : Client) (p : process)
    (inputs : list input) :
  state p = Running →
  let q := run config c p inputs in
  ∃ ev, Forall (λ e, exits e = false) ev
        ∧ match state q with
          | Running => trace q = trace p ++ ev
          | Exited code =>
              code = 1 ∧
              ∃ buildErr, Tick (inl buildErr) ∈ inputs
                ∧ trace q = trace p ++ ev ++ [EvLog (LogBuildFail buildErr); EvExit 1]
          | Panicked =>
              (∃ msg, Message (Some msg) ∈ inputs)
              ∧ trace q = trace p ++ ev ++ [EvPanic; EvExit 2]
          | Connecting => False
          end.
Proof.
  revert p. induction inputs as [|i inputs IH]; intros p Hrunning q.
  { unfold q. simpl. rewrite Hrunning. exists []. split; [constructor|].
    by rewrite app_nil_r. }
  change q with (run config c (step config c p i) inputs).
  destruct (step_end config c p i Hrunning) as (ev1 & Hev1 & Hstep).
  destruct (decide (state (step config c p i) = Running)) as [Hnext|Hnext].
  - rewrite Hnext in Hstep. destruct (IH _ Hnext) as (ev2 & Hev2 & Hrun).
    exists (ev1 ++ ev2). split; [by apply Forall_app|].
    destruct (state (run config c (step config c p i) inputs)).
    + done.
    + by rewrite Hrun, Hstep, <- app_assoc.
    + destruct Hrun as [[msg Hin] ->]. split; [exists msg; by right|].
      by rewrite Hstep, <- !app_assoc.
    + destruct Hrun as (-> & buildErr & Hin & ->). split; [done|].
      exists buildErr. split; [by right|]. by rewrite Hstep, <- !app_assoc.
  - rewrite run_stopped by done. exists ev1. split; [done|].
    destruct (state (step config c p i)).
    + done.
    + done.
    + destruct Hstep as [[msg ->] ->]. split; [|done]. exists msg. by left.
    + destruct Hstep as (-> & buildErr & -> & ->). split; [done|].
      exists buildErr. split; [by left|done].
Qed.

(** ** The client of the dispatch *)

(** X9. Every request of [makeConsumer] goes through the one client
    made with the upstream timeout of the configuration: its dial
    timeout is the duration that [upstream_timeout] parsed to, with a
    keep-alive of 10 seconds, at most 100 idle connections and an idle
    timeout of 120 milliseconds. *)
Theorem dispatch_client (env : environ) (val : string) (d : Duration)
    (config : connectorConfig) :
  env !! "upstream_timeout" = Some val →
  ParseDuration val = Some d →
  buildConnectorConfig env = Built config →
  upstreamTimeout config = d
  ∧ ∀ brokers inputs h, ∃ ev,
      trace (makeConsumer brokers config None inputs h) = h ++ ev
      ∧ Forall (λ e, ∀ c' httpReq, e = EvDo c' httpReq →
                     c' = {| DialTimeout := d; KeepAlive := 10 * Second;
                             MaxIdleConns := 100; MaxIdleConnsPerHost := 100;
                             IdleConnTimeout := 120 * Millisecond |}) ev.
Proof.
  intros Hset Hparse Hbuilt.
  assert (upstreamTimeout config = d) as Hd.
  { destruct (buildConnectorConfig_cases env) as [[_ Heq]|[_ Heq]];
      rewrite Heq in Hbuilt; [done|]. inversion_clear Hbuilt. simpl.
    unfold durationSetting. by rewrite Hset, Hparse. }
  split; [done|]. intros brokers inputs h. unfold makeConsumer.
  destruct (run_requests config (makeClient (upstreamTimeout config))
              {| topicMap := types.NewTopicMap; num := 0;
                 trace := (h ++ [EvLog (LogBindingTopics (topics config));
                                 EvNewConsumer brokers group (topics config)])
                          ++ [EvNewTicker (tickerPeriod config)];
                 state := Running |} inputs) as (ev & -> & _ & Hc).
  simpl. rewrite <- !app_assoc. eexists. split; [done|].
  apply Forall_app. split; [by repeat constructor|].
  apply Forall_app. split; [by repeat constructor|].
  eapply Forall_impl; [done|]. intros e He c' httpReq Heq.
  rewrite (He c' httpReq Heq). unfold makeClient. by rewrite Hd.
Qed.


(** ** From [main] to the consumer *)

Lemma connect_app (config : connectorConfig) (brokers : list string)
    (fails rest : list attempt) (h : Trace) :
  Forall (λ a, connected a = false) fails →
  connect config brokers (fails ++ rest) h
  = connect config brokers rest (h ++ flat_map (failedRound config brokers) fails).
Proof.
  intros Hfails. revert h. induction Hfails as [|a fails Ha _ IH]; intros h.
  - simpl. by rewrite app_nil_r.
  - rewrite <- app_comm_cons, connect_failed by done.
    rewrite IH. cbn [flat_map]. by rewrite <- app_assoc.
Qed.

Lemma main_connected (env : environ) (config : connectorConfig)
    (fails rest : list attempt) (a : attempt) (newConsumer : option string)
    (inputs : list input) :
  buildConnectorConfig env = Built config →
  Forall (λ a, connected a = false) fails →
  connected a = true →
  main env (fails ++ a :: rest) newConsumer inputs
  = makeConsumer [broker config +:+ ":9092"] config newConsumer inputs
      (flat_map (failedRound config [broker config +:+ ":9092"]) fails
       ++ [EvNewClient [broker config +:+ ":9092"]]).
Proof.
  intros Hbuilt Hfails Ha. unfold main. rewrite Hbuilt, connect_app by done.
  destruct (connect_connected config [broker config +:+ ":9092"] a rest
              ([] ++ flat_map (failedRound config [broker config +:+ ":9092"]) fails) Ha)
    as (cl & _ & _ & ->).
  done.
Qed.

(** X10. Once the configuration is built, [main] hands over to
    [makeConsumer] at the first answer of [sarama.NewClient] that
    connects: up to there it has done the failed rounds and the
    connecting call, all against the one address made of the broker host
    and port 9092, and the answers that would come after are never asked
    for. *)
Theorem main_hands_over (env : environ) (config : connectorConfig)
    (fails rest : list attempt) (a : attempt) (newConsumer : option string)
    (inputs : list input) :
  buildConnectorConfig env = Built config →
  Forall (λ a, connected a = false) fails →
  connected a = true →
  let brokers := [default "kafka" (env !! "broker_host") +:+ ":9092"] in
  main env (fails ++ a :: rest) newConsumer inputs
  = makeConsumer brokers config newConsumer inputs
      (flat_map (failedRound config brokers) fails ++ [EvNewClient brokers]).
Proof.
  intros Hbuilt Hfails Ha brokers.
  assert (broker config = default "kafka" (env !! "broker_host")) as Hbroker.
  { destruct (buildConnectorConfig_cases env) as [[_ Heq]|[_ Heq]];
      rewrite Heq in Hbuilt; [done|]. by inversion_clear Hbuilt. }
  unfold brokers. rewrite <- Hbroker. by apply main_connected.
Qed.

(** X11. While no answer of [sarama.NewClient] connects, [main] is
    still in its connect loop: it has done the failed rounds and nothing
    else, no consumer is created, no ticker started and no input
    served. *)
Theorem main_waits_for_broker (env : environ) (config : connectorConfig)
    (attempts : list attempt) (newConsumer : option string) (inputs : list input) :
  buildConnectorConfig env = Built config →
  Forall (λ a, connected a = false) attempts →
  main env attempts newConsumer inputs
  = {| topicMap := types.NewTopicMap; num := 0;
       trace := flat_map (failedRound config [broker config +:+ ":9092"]) attempts;
       state := Connecting |}.
Proof.
  intros Hbuilt Hfails. unfold main. rewrite Hbuilt.
  rewrite <- (app_nil_r attempts) at 1. by rewrite connect_app.
Qed.

(** X12. When [cluster.NewConsumer] fails, the process logs the error
    and exits with status 1 right after the binding line: no ticker is
    created and none of the inputs is served. *)
Theorem consumer_failure_is_fatal (env : environ) (config : connectorConfig)
    (fails rest : list attempt) (a : attempt) (consumerErr : string)
    (inputs : list input) :
  buildConnectorConfig env = Built config →
  Forall (λ a, connected a = false) fails →
  connected a = true →
  let brokers := [broker config +:+ ":9092"] in
  main env (fails ++ a :: rest) (Some consumerErr) inputs
  = {| topicMap := types.NewTopicMap; num := 0;
       trace := flat_map (failedRound config brokers) fails
                ++ [EvNewClient brokers;
                    EvLog (LogBindingTopics (topics config));
                    EvNewConsumer brokers group (topics config);
                    EvLog (LogConsumerFail consumerErr);
                    EvExit 1];
       state := Exited 1 |}.
Proof.
  intros Hbuilt Hfails Ha brokers.
  rewrite (main_connected env config) by done.
  unfold makeConsumer. by rewrite <- !app_assoc.
Qed.

(** ** More on the configuration *)

(** X13. [buildConnectorConfig] reads the five variables [broker_host],
    [topics], [gateway_url], [upstream_timeout] and [rebuild_interval]
    and no other: two environments that agree on these give the same
    result. *)
Theorem config_reads_five_variables (env1 env2 : environ) :
  (∀ key, key ∈ configKeys → env1 !! key = env2 !! key) →
  buildConnectorConfig env1 = buildConnectorConfig env2.
Proof.
  intros Hagree. unfold buildConnectorConfig, configuredTopics, durationSetting.
  rewrite !Hagree; [done|unfold configKeys; set_solver..].
Qed.

Lemma built_topics (env : environ) (config : connectorConfig) :
  buildConnectorConfig env = Built config →
  ∃ val, env !! "topics" = Some val
         ∧ topics config = filter (λ seg, seg ≠ "") (strings.Split val ",")
         ∧ topics config ≠ [].
Proof.
  intros Hbuilt.
  destruct (buildConnectorConfig_cases env) as [[_ Heq]|[Hcons Heq]];
    rewrite Heq in Hbuilt; [done|]. inversion_clear Hbuilt. simpl.
  rewrite configuredTopics_filter in Hcons |- *.
  destruct (env !! "topics") as [val|]; [|done]. by exists val.
Qed.

(** X14. The topics of a built configuration are a non-empty list of
    non-empty strings without a comma. *)
Theorem topics_well_formed (env : environ) (config : connectorConfig) :
  buildConnectorConfig env = Built config →
  topics config ≠ []
  ∧ Forall (λ topic, topic ≠ "" ∧ strings.contains "," topic = false) (topics config).
Proof.
  intros (val & _ & -> & Hcons)%built_topics. split; [done|].
  apply Forall_forall. intros topic [Hne Hin]%list_elem_of_filter. split; [done|].
  pose proof (Split_segments val ",") as Hsegs.
  by eapply Forall_forall in Hsegs.
Qed.

Lemma Split_plain (seg : string) (sep : ascii) :
  strings.contains sep seg = false → strings.Split seg sep = [seg].
Proof.
  induction seg as [|ch seg IH]; simpl; [done|].
  destruct (Ascii.eqb_spec sep ch) as [->|Hne]; [done|]. simpl. intros Hseg.
  destruct (Ascii.eqb_spec ch sep) as [->|_]; [done|]. by rewrite IH.
Qed.

Lemma Split_sep (seg tail : string) (sep : ascii) :
  strings.contains sep seg = false →
  strings.Split (seg +:+ String sep tail) sep = seg :: strings.Split tail sep.
Proof.
  induction seg as [|ch seg IH]; simpl.
  - intros _. by rewrite Ascii.eqb_refl.
  - destruct (Ascii.eqb_spec sep ch) as [->|Hne]; [done|]. simpl. intros Hseg.
    destruct (Ascii.eqb_spec ch sep) as [->|_]; [done|]. by rewrite IH.
Qed.

(** Splitting what was joined gives the segments back. *)
Lemma Split_Join (segs : list string) (sep : ascii) :
  segs ≠ [] →
  Forall (λ seg, strings.contains sep seg = false) segs →
  strings.Split (strings.Join segs sep) sep = segs.
Proof.
  intros Hcons Hsegs. induction Hsegs as [|seg segs Hseg Hsegs IH]; [done|].
  destruct segs as [|seg' segs].
  - by apply Split_plain.
  - change (strings.Join (seg :: seg' :: segs) sep)
      with (seg +:+ String sep (strings.Join (seg' :: segs) sep)).
    rewrite Split_sep by done. by rewrite IH.
Qed.

(** X15. Writing the topics of a built configuration back, joined by
    commas, into [topics] gives the same configuration again: the
    reading of the topic list is stable under its own output. *)
Theorem topics_round_trip (env : environ) (config : connectorConfig) :
  buildConnectorConfig env = Built config →
  buildConnectorConfig (<["topics" := strings.Join (topics config) ","]> env)
  = Built config.
Proof.
  intros Hbuilt.
  pose proof Hbuilt as (val & Hval & Htopics & Hcons)%built_topics.
  assert (Forall (λ topic, topic ≠ "" ∧ strings.contains "," topic = false)
            (topics config)) as Hwell.
  { rewrite Htopics. apply Forall_forall.
    intros topic [Hne Hin]%list_elem_of_filter. split; [done|].
    pose proof (Split_segments val ",") as Hsegs.
    by eapply Forall_forall in Hsegs. }
  assert (configuredTopics (<["topics" := strings.Join (topics config) ","]> env)
          = configuredTopics env) as Hsame.
  { rewrite !configuredTopics_filter, lookup_insert_eq, Hval, <- Htopics.
    rewrite Split_Join; [|done|by eapply Forall_impl; [exact Hwell|intros ? []]].
    clear -Hwell. induction Hwell as [|topic rest [Hne _] _ IH]; [done|].
    by rewrite filter_cons_True, IH. }
  rewrite <- Hbuilt. unfold buildConnectorConfig, durationSetting.
  rewrite Hsame. by rewrite !lookup_insert_ne.
Qed.


(** ** Every mark follows the dispatch of its message *)

(** A panic of the loop of [mcb] comes from a matched function whose
    URL does not parse. *)
Lemma invokeEach_panic_cause (config : connectorConfig) (c : Client) (msg : ConsumerMessage)
    (fns : list string) (h : Trace) (deferred : list Event) :
  (invokeEach config c msg fns h deferred).2 = Panic →
  ∃ fn, fn ∈ fns ∧ urlParses (functionURL config fn) = false.
Proof.
  revert h deferred. induction fns as [|fn rest IH]; intros h deferred; simpl; [done|].
  destruct (invoke config c msg fn h deferred) as [[h1 deferred1] fl1] eqn:Hone.
  pose proof Hone as (_ & _ & _ & _ & _ & _ & _ & _ & Hpanic & _)%invoke_shape.
  destruct fl1; simpl.
  - intros (fn' & Hin & Hurl)%IH. exists fn'. split; [by right|done].
  - done.
  - intros _. exists fn. split; [by left|]. by apply Hpanic.
Qed.

Lemma mcb_panic_cause (config : connectorConfig) (c : Client) (t : types.TopicMap)
    (msg : ConsumerMessage) (h : Trace) :
  (mcb config c t msg h).2 = true →
  Value msg ≠ []
  ∧ ∃ fn, fn ∈ types.Match t (Topic msg) ∧ urlParses (functionURL config fn) = false.
Proof.
  unfold mcb. destruct (Value msg) as [|b payload] eqn:Hvalue; [done|].
  replace (0 <? Z.of_nat (length (b :: payload)))%Z with true
    by (symmetry; apply Z.ltb_lt; simpl; lia).
  pose proof (invokeEach_panic_cause config c msg
                (elements (types.Match t (Topic msg))) h []) as Hcause.
  destruct (invokeEach _ _ _ _ _ _) as [[h1 deferred1] fl1]. simpl in Hcause.
  destruct fl1; simpl; try done. intros _. split; [done|].
  destruct Hcause as (fn & Hin%elem_of_elements & Hurl); [done|]. by exists fn.
Qed.

(** The wake-up on a message, in terms of the call of [mcb]. *)
Lemma step_message (config : connectorConfig) (c : Client) (p : process)
    (msg : ConsumerMessage) :
  state p = Running →
  step config c p (Message (Some msg))
  = if (dispatch config c p msg).2
    then {| topicMap := topicMap p; num := (num p + 1) `mod` MaxInt32;
            trace := (dispatch config c p msg).1 ++ [EvPanic; EvExit 2];
            state := Panicked |}
    else {| topicMap := topicMap p; num := (num p + 1) `mod` MaxInt32;
            trace := (dispatch config c p msg).1 ++ [EvMarkOffset msg ""];
            state := Running |}.
Proof.
  intros Hrunning. unfold step, dispatch, receivedLine. rewrite Hrunning.
  by destruct (mcb _ _ _ _ _) as [h' []].
Qed.

(** A mark that one wake-up adds is the mark of the message of that
    wake-up, and it is the last thing the wake-up does, right behind the
    call of [mcb]. *)
Lemma step_mark_exact (config : connectorConfig) (c : Client) (p : process) (i : input)
    (pre post : Trace) (msg : ConsumerMessage) (metadata : string) :
  state p = Running →
  trace (step config c p i) = pre ++ EvMarkOffset msg metadata :: post →
  (length (trace p) ≤ length pre)%nat →
  i = Message (Some msg) ∧ metadata = "" ∧ post = []
  ∧ dispatch config c p msg = (pre, false).
Proof.
  intros Hrunning Heq Hlen.
  assert (∀ ev, Forall (λ e, marked e = None) ev →
                trace p ++ ev = pre ++ EvMarkOffset msg metadata :: post → False)
    as Hnone.
  { intros ev Hev Hcut.
    apply cut_in_extension in Hcut as (k & -> & Hk); [|done].
    by eapply no_mark_inside in Hk. }
  destruct i as [[buildErr|lookups]|[msg0|]|consumerErr|ntf].
  - exfalso. revert Heq. unfold step. rewrite Hrunning. simpl.
    apply Hnone. by repeat constructor.
  - exfalso. revert Heq. unfold step. rewrite Hrunning. simpl.
    apply Hnone. by repeat constructor.
  - rewrite step_message in Heq by done.
    destruct (dispatch config c p msg0) as [h' panicked] eqn:Hdispatch.
    pose proof Hdispatch as (ev & -> & Hev%dispatch_no_mark)%mcb_events.
    destruct panicked; simpl in Heq.
    + exfalso. rewrite <- !app_assoc in Heq. revert Heq. apply Hnone.
      constructor; [done|]. apply Forall_app. split; [done|]. by repeat constructor.
    + rewrite <- !app_assoc in Heq.
      apply cut_in_extension in Heq as (k & -> & Hk); [|done].
      change ((receivedLine p msg0 :: ev) ++ [EvMarkOffset msg0 ""]
              = k ++ EvMarkOffset msg metadata :: post) in Hk.
      apply mark_at_end in Hk as (-> & [= -> ->] & ->); [|by constructor|done].
      split_and!; [done..|]. rewrite Hdispatch. by rewrite <- !app_assoc.
  - exfalso. revert Heq. unfold step. rewrite Hrunning. simpl.
    rewrite <- (app_nil_r (trace p)). by apply Hnone.
  - exfalso. revert Heq. unfold step. rewrite Hrunning. simpl.
    apply Hnone. by repeat constructor.
  - exfalso. revert Heq. unfold step. rewrite Hrunning. simpl.
    apply Hnone. by repeat constructor.
Qed.

Lemma run_mark_exact (config : connectorConfig) (c : Client) (inputs : list input)
    (p : process) (pre post : Trace) (msg : ConsumerMessage) (metadata : string) :
  state p = Running →
  trace (run config c p inputs) = pre ++ EvMarkOffset msg metadata :: post →
  (length (trace p) ≤ length pre)%nat →
  ∃ earlier later,
    inputs = earlier ++ Message (Some msg) :: later
    ∧ state (run config c p earlier) = Running
    ∧ metadata = ""
    ∧ dispatch config c (run config c p earlier) msg = (pre, false).
Proof.
  revert p post. induction inputs as [|i inputs IH]; intros p post Hrunning Heq Hlen.
  { simpl in Heq. rewrite Heq, length_app in Hlen. simpl in Hlen. lia. }
  change (run config c p (i :: inputs))
    with (run config c (step config c p i) inputs) in Heq.
  destruct (step_events config c p i) as (ev1 & Hstep & _).
  destruct (decide (state (step config c p i) = Running
                    ∧ (length (trace (step config c p i)) ≤ length pre)%nat))
    as [[Hnext Hbehind]|Hinside].
  - destruct (IH _ _ Hnext Heq Hbehind) as (earlier & later & -> & Hearlier & -> & Hmcb).
    by exists (i :: earlier), later.
  - assert (∃ post', trace (step config c p i)
                     = pre ++ EvMarkOffset msg metadata :: post') as [post' Hcut].
    { destruct (decide (state (step config c p i) = Running)) as [Hnext|Hnext].
      - destruct (run_events config c (step config c p i) inputs) as (ev & Hext & _).
        rewrite Hext in Heq.
        apply app_eq_inv in Heq as [(k & Hk & Hpost)|(k & -> & _)].
        2:{ exfalso. apply Hinside. split; [done|]. rewrite length_app. lia. }
        destruct k as [|e k].
        { exfalso. apply Hinside. split; [done|]. rewrite Hk, app_nil_r. lia. }
        simplify_eq/=. by eauto.
      - rewrite run_stopped in Heq by done. by eauto. }
    apply step_mark_exact in Hcut as (-> & -> & _ & Hmcb); [|done..].
    by exists [], inputs.
Qed.

(** Why a wake-up stops the process. *)
Lemma step_stops (config : connectorConfig) (c : Client) (p : process) (i : input) :
  state p = Running →
  state (step config c p i) ≠ Running →
  (∃ buildErr, i = Tick (inl buildErr))
  ∨ (∃ msg fn, i = Message (Some msg) ∧ Value msg ≠ []
               ∧ fn ∈ types.Match (topicMap p) (Topic msg)
               ∧ urlParses (functionURL config fn) = false).
Proof.
  intros Hrunning.
  destruct i as [[buildErr|lookups]|[msg|]|consumerErr|ntf];
    try (unfold step; rewrite Hrunning; simpl; by eauto).
  - rewrite step_message by done.
    destruct (dispatch config c p msg) as [h' panicked] eqn:Hdispatch.
    destruct panicked; simpl; [|done]. intros _. right.
    assert ((mcb config c (topicMap p) msg (trace p ++ [receivedLine p msg])).2 = true)
      as (Hpayload & fn & Hin & Hurl)%mcb_panic_cause
      by (by unfold dispatch in Hdispatch; rewrite Hdispatch).
    by exists msg, fn.
Qed.

(** C3. In a run of the connector from a running process. The offsets
    are marked in the order in which the messages were received, none
    left out up to the last mark, and while the process runs every
    message received so far is marked. The process stops only on a
    failed [Build] or on a message with a payload for which the URL of a
    function does not parse; no answer of the gateway stops it. Every
    mark that the run adds is the mark of a message of the input, made
    with empty metadata, and what the process did up to that mark is
    exactly what it had done when the message arrived, followed by the
    complete call of [mcb] for that message on the topic map of that
    moment. And for every message that arrives while the process runs,
    the call of [mcb] is followed at once by the mark of the message,
    however the requests ended, unless the call panicked on a matched
    function whose URL does not parse. *)
Theorem marks_follow_dispatch (config : connectorConfig) (c : Client) (p : process)
    (inputs : list input) :
  state p = Running →
  let q := run config c p inputs in
  (∃ served, served `prefix_of` omap received inputs
             ∧ marks (trace q) = marks (trace p) ++ served)
  ∧ (state q = Running → marks (trace q) = marks (trace p) ++ omap received inputs)
  ∧ (state q ≠ Running →
     (∃ buildErr, Tick (inl buildErr) ∈ inputs)
     ∨ (∃ msg fn, Message (Some msg) ∈ inputs ∧ Value msg ≠ []
                  ∧ urlParses (functionURL config fn) = false))
  ∧ (∀ pre msg metadata post,
       trace q = pre ++ EvMarkOffset msg metadata :: post →
       (length (trace p) ≤ length pre)%nat →
       ∃ earlier later,
         inputs = earlier ++ Message (Some msg) :: later
         ∧ state (run config c p earlier) = Running
         ∧ metadata = ""
         ∧ dispatch config c (run config c p earlier) msg = (pre, false))
  ∧ (∀ earlier msg later,
       inputs = earlier ++ Message (Some msg) :: later →
       state (run config c p earlier) = Running →
       let arrived := run config c p earlier in
       if (dispatch config c arrived msg).2
       then state q = Panicked
            ∧ trace q = (dispatch config c arrived msg).1 ++ [EvPanic; EvExit 2]
            ∧ Value msg ≠ []
            ∧ ∃ fn, fn ∈ types.Match (topicMap arrived) (Topic msg)
                    ∧ urlParses (functionURL config fn) = false
       else ∃ post,
              trace q = (dispatch config c arrived msg).1 ++ EvMarkOffset msg "" :: post).
Proof.
  intros Hrunning q. split_and!.
  - unfold q. clear q. revert p Hrunning.
    induction inputs as [|i inputs IH]; intros p Hrunning.
    { exists []. by rewrite app_nil_r. }
    change (run config c p (i :: inputs))
      with (run config c (step config c p i) inputs).
    destruct (step_marks config c p i Hrunning) as (Hserved & Hstopped & _).
    rewrite received_cons.
    destruct (decide (state (step config c p i) = Running)) as [Hnext|Hnext].
    + destruct (IH _ Hnext) as (served & Hprefix & ->).
      exists (option_list (received i) ++ served).
      split; [by apply prefix_app|]. by rewrite Hserved, <- app_assoc.
    + rewrite run_stopped, Hstopped by done.
      exists []. split; [apply prefix_nil|by rewrite app_nil_r].
  - unfold q. clear q. revert p Hrunning.
    induction inputs as [|i inputs IH]; intros p Hrunning Hq.
    { simpl. by rewrite app_nil_r. }
    change (run config c p (i :: inputs))
      with (run config c (step config c p i) inputs) in *.
    destruct (step_marks config c p i Hrunning) as (Hserved & _).
    destruct (decide (state (step config c p i) = Running)) as [Hnext|Hnext].
    + by rewrite IH, Hserved, received_cons, <- app_assoc.
    + rewrite run_stopped in Hq by done. by destruct Hnext.
  - unfold q. clear q. revert p Hrunning.
    induction inputs as [|i inputs IH]; intros p Hrunning Hq; [done|].
    change (run config c p (i :: inputs))
      with (run config c (step config c p i) inputs) in Hq.
    destruct (decide (state (step config c p i) = Running)) as [Hnext|Hnext].
    + destruct (IH _ Hnext Hq) as [[buildErr Hin]|(msg & fn & Hin & Hrest)].
      * left. exists buildErr. by right.
      * right. exists msg, fn. split; [by right|done].
    + destruct (step_stops config c p i Hrunning Hnext)
        as [[buildErr ->]|(msg & fn & -> & Hpayload & _ & Hurl)].
      * left. exists buildErr. by left.
      * right. exists msg, fn. split; [by left|done].
  - intros pre msg metadata post. by apply run_mark_exact.
  - intros earlier msg later -> Harrived arrived. unfold q. rewrite run_app.
    change (run config c (run config c p earlier) (Message (Some msg) :: later))
      with (run config c (step config c arrived (Message (Some msg))) later).
    rewrite step_message by done.
    destruct (dispatch config c arrived msg) as [h' panicked] eqn:Hdispatch.
    destruct panicked; simpl.
    + rewrite run_stopped by done. simpl.
      assert ((mcb config c (topicMap arrived) msg
                 (trace arrived ++ [receivedLine arrived msg])).2 = true)
        as (Hpayload & Hcause)%mcb_panic_cause
        by (by unfold dispatch in Hdispatch; rewrite Hdispatch).
      by split_and!.
    + destruct (run_events config c
                  {| topicMap := topicMap arrived;
                     num := (num arrived + 1) `mod` MaxInt32;
                     trace := h' ++ [EvMarkOffset msg ""]; state := Running |} later)
        as (ev & -> & _).
      exists ev. simpl. by rewrite <- app_assoc.
Qed.

End Connector.

(** ** The topic map under a concurrent refresh *)

Section TopicMap.

Import types snapshot.

Lemma subscribers_addRecord (idx : Index) (r : SubscriptionRecord) (topicName f : string) :
  f ∈ subscribers (addRecord idx r) topicName
  ↔ f ∈ subscribers idx topicName ∨ (functionIdentifier r = f ∧ topic r = topicName).
Proof.
  unfold addRecord, subscribers at 1.
  destruct (decide (topic r = topicName)) as [<-|Hne].
  - rewrite lookup_insert_eq. simpl. set_solver.
  - rewrite lookup_insert_ne by done. fold (subscribers idx topicName). naive_solver.
Qed.

Lemma subscribers_foldl (subscriptions : list SubscriptionRecord) (idx : Index)
    (topicName f : string) :
  f ∈ subscribers (foldl addRecord idx subscriptions) topicName
  ↔ f ∈ subscribers idx topicName
    ∨ {| functionIdentifier := f; topic := topicName |} ∈ subscriptions.
Proof.
  revert idx. induction subscriptions as [|r subscriptions IH]; intros idx; simpl.
  - rewrite elem_of_nil. naive_solver.
  - rewrite IH, subscribers_addRecord, elem_of_cons.
    destruct r as [f' topic']. simpl. naive_solver.
Qed.

(** After [Sync], [Match] returns the functions that have a record with
    the topic, and no other. *)
Lemma Match_Sync (t : TopicMap) (updated : list SubscriptionRecord) (topicName f : string) :
  f ∈ Match (Sync t updated) topicName
  ↔ {| functionIdentifier := f; topic := topicName |} ∈ updated.
Proof.
  unfold Match, Sync, byTopic. simpl. rewrite subscribers_foldl.
  unfold subscribers. rewrite lookup_empty. simpl. set_solver.
Qed.

Lemma consistent_start (t : TopicMap) (syncs0 : list (list SubscriptionRecord))
    (matches : list string) :
  consistent t syncs0 (start t syncs0 matches).
Proof.
  split; simpl; [unfold complete; by left|by intros x|done|done|constructor].
Qed.

Lemma consistent_writerStep (t : TopicMap) (syncs0 : list (list SubscriptionRecord))
    (s : system) :
  consistent t syncs0 s → consistent t syncs0 (writerStep s).
Proof.
  intros Hs. pose proof Hs as [Hshared Hsyncs Hbuilding Hholding Hobserved].
  unfold writerStep.
  destruct (syncing s) as [|[|r todo] fresh] eqn:Hwriter.
  - destruct (syncs s) as [|subscriptions later] eqn:Hlater; [done|].
    split; simpl; [done| | |done|done].
    + intros x Hx. apply Hsyncs. by right.
    + intros todo fresh [= <- <-]. exists subscriptions.
      split; [|done]. apply Hsyncs. by left.
  - destruct (Hbuilding [] fresh eq_refl) as (subscriptions & Hin & Hfresh).
    simpl in Hfresh. subst fresh.
    split; simpl; [|done|done|done|done].
    unfold complete. right. apply list_elem_of_fmap. by exists subscriptions.
  - split; simpl; [done|done| |done|done].
    intros todo' fresh' [= <- <-]. by apply (Hbuilding (r :: todo) fresh).
Qed.

Lemma consistent_readerStep (t : TopicMap) (syncs0 : list (list SubscriptionRecord))
    (s : system) :
  consistent t syncs0 s → consistent t syncs0 (readerStep s).
Proof.
  intros Hs. pose proof Hs as [Hshared Hsyncs Hbuilding Hholding Hobserved].
  unfold readerStep.
  destruct (matching s) as [|captured topicName] eqn:Hreader.
  - destruct (matches s) as [|topicName later]; [done|].
    split; simpl; [done|done|done| |done].
    by intros captured topicName' [= <- <-].
  - split; simpl; [done|done|done|done|].
    apply Forall_app. split; [done|]. constructor; [|done].
    exists captured. split; [|done]. by apply (Hholding captured topicName).
Qed.

Lemma consistent_schedule (t : TopicMap) (syncs0 : list (list SubscriptionRecord))
    (choices : list bool) (s : system) :
  consistent t syncs0 s → consistent t syncs0 (schedule s choices).
Proof.
  revert s. induction choices as [|w choices IH]; intros s Hs; [done|].
  simpl. apply IH. destruct w; [by apply consistent_writerStep|by apply consistent_readerStep].
Qed.

Lemma schedule_cons (s : system) (w : bool) (choices : list bool) :
  schedule s (w :: choices)
  = schedule (if w then writerStep s else readerStep s) choices.
Proof. done. Qed.

(** The writer left alone builds the mapping of [Sync] and publishes it. *)
Lemma writer_builds (s : system) (todo : list SubscriptionRecord) (fresh : Index) :
  syncing s = Building todo fresh →
  shared (schedule s (replicate (S (length todo)) true)) = foldl addRecord fresh todo.
Proof.
  revert s fresh. induction todo as [|r todo IH]; intros s fresh Hs.
  - simpl. unfold writerStep. by rewrite Hs.
  - change (replicate (S (length (r :: todo))) true)
      with (true :: replicate (S (length todo)) true).
    rewrite schedule_cons, (IH _ (addRecord fresh r)); [done|].
    unfold writerStep. by rewrite Hs.
Qed.

(** C5. After [Sync], [Match] returns for a topic exactly the functions
    that have a record with that topic. The writer task, step by step,
    publishes the index of [Sync]. And however the steps of a task that
    syncs and a task that matches are interleaved, each result of a match
    is the lookup of its topic in one complete index: the index the run
    started with, or the index of one of the sync calls. With one sync
    call under way, that is what [Match] returned before it or what it
    returns after it. *)
Theorem match_sees_complete_index (t : TopicMap) (syncs : list (list SubscriptionRecord))
    (matches : list string) (choices : list bool) :
  (∀ updated topicName f,
     f ∈ Match (Sync t updated) topicName
     ↔ {| functionIdentifier := f; topic := topicName |} ∈ updated)
  ∧ (∀ updated,
       shared (schedule (start t [updated] matches)
                 (replicate (S (S (length updated))) true))
       = current (Sync t updated))
  ∧ Forall (λ o, ∃ idx, idx ∈ complete t syncs ∧ o.2 = subscribers idx o.1)
      (observed (schedule (start t syncs matches) choices))
  ∧ (∀ updated,
       Forall (λ o, o.2 = Match t o.1 ∨ o.2 = Match (Sync t updated) o.1)
         (observed (schedule (start t [updated] matches) choices))).
Proof.
  split_and!.
  - intros updated topicName f. apply Match_Sync.
  - intros updated.
    change (replicate (S (S (length updated))) true)
      with (true :: replicate (S (length updated)) true).
    rewrite schedule_cons. by rewrite (writer_builds _ updated ∅).
  - apply consistent_observed, consistent_schedule, consistent_start.
  - intros updated.
    eapply Forall_impl;
      [apply (consistent_observed t [updated]), consistent_schedule, consistent_start|].
    intros o (idx & Hidx & ->). unfold complete in Hidx. simpl in Hidx.
    apply elem_of_cons in Hidx as [->|Hidx]; [by left|].
    apply list_elem_of_singleton in Hidx as ->. by right.
Qed.

End TopicMap.

(** ** The theorems at concrete inputs *)

Lemma buildConnectorConfig_topics_witness :
  let env : environ := {[ "topics" := "orders,,payments," ]} in
  env !! "topics" = Some "orders,,payments,"
  ∧ match buildConnectorConfig sample.ParseDuration env with
    | Built config =>
        topics config
        = filter (λ seg, seg ≠ "") (strings.Split "orders,,payments," ",")
    | Fatal _ => False
    end.
Proof.
  intros env.
  assert (env !! "topics" = Some "orders,,payments,") as Hset by by vm_compute.
  split; [done|].
  pose proof (buildConnectorConfig_topics sample.ParseDuration sample.urlParses
                sample.gatewayUp env (Some "orders,,payments,") Hset) as [_ Htopics].
  destruct (buildConnectorConfig sample.ParseDuration env) as [l|config] eqn:Hbuilt.
  - vm_compute in Hbuilt. discriminate Hbuilt.
  - by destruct Htopics.
Defined.

Lemma unparsed_duration_keeps_default_witness :
  let env : environ := {[ "topics" := "orders"; "upstream_timeout" := "soon" ]} in
  env !! "upstream_timeout" = Some "soon"
  ∧ sample.ParseDuration "soon" = None
  ∧ buildConnectorConfig sample.ParseDuration env
    = buildConnectorConfig sample.ParseDuration (delete "upstream_timeout" env).
Proof.
  split; [by vm_compute|]. split; [by vm_compute|].
  apply (unparsed_duration_keeps_default sample.ParseDuration sample.urlParses
           sample.gatewayUp
           (<["topics" := "orders"]> {[ "upstream_timeout" := "soon" ]})
           "upstream_timeout" "soon"); [by left|by vm_compute|by vm_compute].
Defined.

Lemma transport_error_ends_dispatch_witness :
  let msg := sample.order 7 sample.hello in
  let c := makeClient (upstreamTimeout sample.config) in
  let httpReq := {| Method := "POST"; URL := "http://gateway:8080/function/f1";
                    Header := []; Body := sample.hello |} in
  Value msg ≠ []
  ∧ elements (types.Match sample.orders (Topic msg)) = ["f1"; "f2"]
  ∧ requests (mcb sample.urlParses sample.gatewayDown sample.config c sample.orders msg []).1
    = requests [] ++ [httpReq].
Proof.
  intros msg c httpReq. split; [done|]. split; [by vm_compute|].
  apply (transport_error_ends_dispatch sample.urlParses sample.gatewayDown
           sample.config c sample.orders msg [] "f1" ["f2"] httpReq "connection refused");
    [done|by vm_compute..].
Defined.

Lemma ticker_period_fixed_witness :
  let env : environ := {[ "topics" := "orders,payments"; "rebuild_interval" := "10s" ]} in
  let config :=
    {| gatewayURL := "http://gateway:8080"; upstreamTimeout := Second * 30;
       topics := ["orders"; "payments"]; printResponse := false;
       rebuildInterval := 10 * Second; broker := "kafka" |} in
  env !! "rebuild_interval" = Some "10s"
  ∧ sample.ParseDuration "10s" = Some (10 * Second)
  ∧ buildConnectorConfig sample.ParseDuration env = Built config
  ∧ rebuildInterval config = 10 * Second
  ∧ DialTimeout (lookupClient config) = 10 * Second
  ∧ tickerPeriod config = Second * 3.
Proof.
  intros env config.
  assert (env !! "rebuild_interval" = Some "10s") as Hset by by vm_compute.
  assert (sample.ParseDuration "10s" = Some (10 * Second)) as Hparse by by vm_compute.
  assert (buildConnectorConfig sample.ParseDuration env = Built config) as Hbuilt
    by by vm_compute.
  destruct (ticker_period_fixed sample.ParseDuration sample.urlParses sample.gatewayUp
              env "10s" (10 * Second) config Hset Hparse Hbuilt)
    as (Hinterval & Hdial & Hperiod & _).
  by split_and!.
Defined.

Lemma marks_follow_dispatch_witness :
  let c := makeClient (upstreamTimeout sample.config) in
  let p := sample.running sample.orders in
  let first := sample.order 7 sample.hello in
  let inputs := [Message (Some first); Tick (inr []);
                 Message (Some (sample.order 8 sample.hello))] in
  let q := run sample.urlParses sample.gatewayDown sample.config c p inputs in
  state p = Running
  ∧ marks (trace q) = marks (trace p) ++ omap received inputs
  ∧ ∃ post,
      trace q
      = (dispatch sample.urlParses sample.gatewayDown sample.config c p first).1
        ++ EvMarkOffset first "" :: post.
Proof.
  intros c p first inputs q. split; [done|].
  destruct (marks_follow_dispatch sample.urlParses sample.gatewayDown sample.config
              c p inputs eq_refl) as (_ & Hall & _ & _ & Heach).
  split; [apply Hall; by vm_compute|].
  by apply (Heach [] first [Tick (inr []); Message (Some (sample.order 8 sample.hello))]
              eq_refl eq_refl).
Defined.

Lemma failed_build_is_fatal_witness :
  let c := makeClient (upstreamTimeout sample.config) in
  let p := sample.running sample.orders in
  let before := [Message (Some (sample.order 7 sample.hello))] in
  let later := [Tick (inr []); Message (Some (sample.order 8 sample.hello))] in
  let q := run sample.urlParses sample.gatewayUp sample.config c p before in
  state q = Running
  ∧ run sample.urlParses sample.gatewayUp sample.config c p
      (before ++ Tick (inl "registry unreachable") :: later)
    = {| topicMap := topicMap q; num := num q;
         trace := trace q ++ [EvLog (LogBuildFail "registry unreachable"); EvExit 1];
         state := Exited 1 |}.
Proof.
  intros c p before later q.
  assert (state q = Running) as Hrunning by by vm_compute.
  split; [done|].
  by apply (failed_build_is_fatal sample.urlParses sample.gatewayUp sample.config
              c p before later "registry unreachable").
Defined.

Lemma nothing_to_dispatch_witness :
  let c := makeClient (upstreamTimeout sample.config) in
  let p := sample.running sample.orders in
  let msg := sample.order 7 [] in
  let q := step sample.urlParses sample.gatewayUp sample.config c p (Message (Some msg)) in
  state p = Running
  ∧ Value msg = []
  ∧ requests (trace q) = requests (trace p)
  ∧ marks (trace q) = marks (trace p) ++ [msg].
Proof.
  intros c p msg q.
  destruct (nothing_to_dispatch sample.urlParses sample.gatewayUp sample.config
              c p msg eq_refl (or_introl eq_refl)) as (_ & Hrequests & Hmarks & _).
  by split_and!.
Defined.

Lemma response_body_never_logged_witness :
  let env : environ := {[ "topics" := "orders,payments" ]} in
  buildConnectorConfig sample.ParseDuration env = Built sample.config
  ∧ printResponse sample.config = false.
Proof.
  intros env.
  assert (buildConnectorConfig sample.ParseDuration env = Built sample.config) as Hbuilt
    by by vm_compute.
  split; [done|].
  by apply (response_body_never_logged sample.ParseDuration sample.urlParses
              sample.gatewayUp env sample.config).
Defined.

Lemma nil_request_panics_witness :
  let config :=
    {| gatewayURL := String "009"%char "gateway"; upstreamTimeout := Second * 30;
       topics := ["orders"]; printResponse := false;
       rebuildInterval := Second * 3; broker := "kafka" |} in
  let c := makeClient (upstreamTimeout config) in
  let p := sample.running sample.orders in
  let msg := sample.order 7 sample.hello in
  let q := step sample.urlParses sample.gatewayUp config c p (Message (Some msg)) in
  state p = Running
  ∧ (∀ h httpReq, ∃ res, sample.gatewayUp c h httpReq = DoRes res)
  ∧ state q = Panicked
  ∧ marks (trace q) = marks (trace p).
Proof.
  intros config c p msg q.
  assert (∀ h httpReq, ∃ res, sample.gatewayUp c h httpReq = DoRes res) as Hdo
    by (intros h httpReq; by eexists).
  destruct (nil_request_panics sample.urlParses sample.gatewayUp config c p msg
              eq_refl Hdo) as (Hiff & Hpanic & _).
  assert (state q = Panicked) as Hq.
  { apply Hiff. split; [done|]. exists "f1". split; [|by vm_compute].
    apply elem_of_elements. vm_compute. by left. }
  split_and!; [done|done|done|by apply Hpanic].
Defined.

Lemma counter_wraps_witness :
  let c := makeClient (upstreamTimeout sample.config) in
  let p := {| topicMap := sample.orders; num := MaxInt32 - 1; trace := [];
              state := Running |} in
  let inputs := [Message (Some (sample.order 7 sample.hello)); Notification "rebalance";
                 Message (Some (sample.order 8 []))] in
  let q := run sample.urlParses sample.gatewayUp sample.config c p inputs in
  state p = Running
  ∧ 0 ≤ num p < MaxInt32
  ∧ 0 ≤ num q < MaxInt32
  ∧ num q = 1.
Proof.
  intros c p inputs q.
  assert (0 ≤ num p < MaxInt32) as Hnum by (by vm_compute).
  destruct (counter_wraps sample.urlParses sample.gatewayUp sample.config c p inputs
              eq_refl Hnum) as [Hbound Hcount].
  split; [done|]. split; [done|]. split; [done|].
  unfold q. rewrite Hcount by by vm_compute. by vm_compute.
Defined.

Lemma idle_wakeups_only_print_witness :
  let c := makeClient (upstreamTimeout sample.config) in
  let p := sample.running sample.orders in
  let inputs := [ConsumerError "broker gone"; Message None; Notification "rebalance"] in
  state p = Running
  ∧ Forall (λ i, idle i = true) inputs
  ∧ run sample.urlParses sample.gatewayUp sample.config c p inputs
    = {| topicMap := topicMap p; num := num p;
         trace := trace p ++ flat_map printed inputs; state := Running |}.
Proof.
  intros c p inputs.
  assert (Forall (λ i, idle i = true) inputs) as Hidle by (by repeat constructor).
  split_and!; [done|done|].
  by apply (idle_wakeups_only_print sample.urlParses sample.gatewayUp sample.config
              c p inputs eq_refl Hidle).
Defined.

Lemma topic_map_follows_ticks_witness :
  let c := makeClient (upstreamTimeout sample.config) in
  let p := sample.running types.NewTopicMap in
  let inputs := [Tick (inr sample.ordersAndPayments);
                 Message (Some (sample.order 7 sample.hello)); Tick (inr [])] in
  let q := run sample.urlParses sample.gatewayUp sample.config c p inputs in
  state p = Running
  ∧ state q = Running
  ∧ topicMap q = foldl types.Sync (topicMap p) (omap built inputs).
Proof.
  intros c p inputs q.
  assert (state q = Running) as Hq by (by vm_compute).
  split_and!; [done|done|].
  by apply (topic_map_follows_ticks sample.urlParses sample.gatewayUp sample.config
              c p inputs eq_refl).
Defined.

Lemma exit_is_final_witness :
  let c := makeClient (upstreamTimeout sample.config) in
  let p := sample.running sample.orders in
  let inputs := [Message (Some (sample.order 7 sample.hello));
                 Tick (inl "registry unreachable");
                 Message (Some (sample.order 8 sample.hello))] in
  let q := run sample.urlParses sample.gatewayUp sample.config c p inputs in
  state p = Running
  ∧ state q = Exited 1
  ∧ last (trace q) = Some (EvExit 1).
Proof.
  intros c p inputs q.
  assert (state q = Exited 1) as Hq by (by vm_compute).
  destruct (exit_is_final sample.urlParses sample.gatewayUp sample.config c p inputs
              eq_refl) as (ev & _ & Hend).
  fold q in Hend. rewrite Hq in Hend.
  destruct Hend as (_ & buildErr & _ & Htrace).
  split_and!; [done|done|]. rewrite Htrace.
  change (trace p ++ ev ++ [EvLog (LogBuildFail buildErr); EvExit 1])
    with (trace p ++ ev ++ [EvLog (LogBuildFail buildErr)] ++ [EvExit 1]).
  by rewrite !app_assoc, last_snoc.
Defined.

Lemma dispatch_client_witness :
  let env : environ := {[ "topics" := "orders,payments"; "upstream_timeout" := "5s" ]} in
  let config :=
    {| gatewayURL := "http://gateway:8080"; upstreamTimeout := 5 * Second;
       topics := ["orders"; "payments"]; printResponse := false;
       rebuildInterval := Second * 3; broker := "kafka" |} in
  env !! "upstream_timeout" = Some "5s"
  ∧ sample.ParseDuration "5s" = Some (5 * Second)
  ∧ buildConnectorConfig sample.ParseDuration env = Built config
  ∧ upstreamTimeout config = 5 * Second.
Proof.
  intros env config.
  assert (env !! "upstream_timeout" = Some "5s") as Hset by (by vm_compute).
  assert (sample.ParseDuration "5s" = Some (5 * Second)) as Hparse by (by vm_compute).
  assert (buildConnectorConfig sample.ParseDuration env = Built config) as Hbuilt
    by (by vm_compute).
  destruct (dispatch_client sample.ParseDuration sample.urlParses sample.gatewayUp
              env "5s" (5 * Second) config Hset Hparse Hbuilt) as [Htimeout _].
  by split_and!.
Defined.

Lemma main_hands_over_witness :
  let env : environ := {[ "topics" := "orders,payments" ]} in
  let fails := [ {| client := None; err := Some "no broker" |};
                 {| client := Some 1%nat; err := Some "no metadata" |} ] in
  let a := {| client := Some 2%nat; err := None |} in
  let rest := [ {| client := None; err := Some "unused" |} ] in
  let brokers := [default "kafka" (env !! "broker_host") +:+ ":9092"] in
  buildConnectorConfig sample.ParseDuration env = Built sample.config
  ∧ Forall (λ a, connected a = false) fails
  ∧ connected a = true
  ∧ main sample.ParseDuration sample.urlParses sample.gatewayUp env
      (fails ++ a :: rest) None []
    = makeConsumer sample.urlParses sample.gatewayUp brokers sample.config None []
        (flat_map (failedRound sample.config brokers) fails ++ [EvNewClient brokers]).
Proof.
  intros env fails a rest brokers.
  assert (buildConnectorConfig sample.ParseDuration env = Built sample.config) as Hbuilt
    by (by vm_compute).
  assert (Forall (λ a, connected a = false) fails) as Hfails by (by repeat constructor).
  split_and!; [done|done|done|].
  by apply (main_hands_over sample.ParseDuration sample.urlParses sample.gatewayUp
              env sample.config fails rest a None []).
Defined.

Lemma main_waits_for_broker_witness :
  let env : environ := {[ "topics" := "orders,payments" ]} in
  let attempts := [ {| client := None; err := Some "no broker" |};
                    {| client := Some 1%nat; err := Some "no metadata" |} ] in
  buildConnectorConfig sample.ParseDuration env = Built sample.config
  ∧ Forall (λ a, connected a = false) attempts
  ∧ state (main sample.ParseDuration sample.urlParses sample.gatewayUp env attempts None
             [Message (Some (sample.order 7 sample.hello))])
    = Connecting.
Proof.
  intros env attempts.
  assert (buildConnectorConfig sample.ParseDuration env = Built sample.config) as Hbuilt
    by (by vm_compute).
  assert (Forall (λ a, connected a = false) attempts) as Hfails
    by (by repeat constructor).
  split_and!; [done|done|].
  by rewrite (main_waits_for_broker sample.ParseDuration sample.urlParses
                sample.gatewayUp env sample.config attempts None _ Hbuilt Hfails).
Defined.

Lemma consumer_failure_is_fatal_witness :
  let env : environ := {[ "topics" := "orders,payments" ]} in
  let a := {| client := Some 2%nat; err := None |} in
  buildConnectorConfig sample.ParseDuration env = Built sample.config
  ∧ Forall (λ a, connected a = false) []
  ∧ connected a = true
  ∧ state (main sample.ParseDuration sample.urlParses sample.gatewayUp env
             ([] ++ a :: []) (Some "group coordinator not available")
             [Message (Some (sample.order 7 sample.hello))])
    = Exited 1.
Proof.
  intros env a.
  assert (buildConnectorConfig sample.ParseDuration env = Built sample.config) as Hbuilt
    by (by vm_compute).
  split_and!; [done|constructor|done|].
  by rewrite (consumer_failure_is_fatal sample.ParseDuration sample.urlParses
                sample.gatewayUp env sample.config [] [] a _ _ Hbuilt
                (Forall_nil_2 _) eq_refl).
Defined.

Lemma config_reads_five_variables_witness :
  let env1 : environ := {[ "topics" := "orders,payments" ]} in
  let env2 : environ := <["HOME" := "/root"]> env1 in
  (∀ key, key ∈ configKeys → env1 !! key = env2 !! key)
  ∧ buildConnectorConfig sample.ParseDuration env1
    = buildConnectorConfig sample.ParseDuration env2.
Proof.
  intros env1 env2.
  assert (∀ key, key ∈ configKeys → env1 !! key = env2 !! key) as Hagree.
  { intros key Hkey. unfold env2. rewrite lookup_insert_ne; [done|].
    intros <-. unfold configKeys in Hkey.
    repeat (apply elem_of_cons in Hkey as [Hkey|Hkey]; [discriminate Hkey|]).
    by apply elem_of_nil in Hkey. }
  split; [done|].
  by apply (config_reads_five_variables sample.ParseDuration env1 env2).
Defined.

Lemma topics_well_formed_witness :
  let env : environ := {[ "topics" := ",orders,,payments" ]} in
  buildConnectorConfig sample.ParseDuration env = Built sample.config
  ∧ topics sample.config ≠ []
  ∧ Forall (λ topic, topic ≠ "" ∧ strings.contains "," topic = false)
      (topics sample.config).
Proof.
  intros env.
  assert (buildConnectorConfig sample.ParseDuration env = Built sample.config) as Hbuilt
    by (by vm_compute).
  split; [done|].
  by apply (topics_well_formed sample.ParseDuration env sample.config).
Defined.

Lemma topics_round_trip_witness :
  let env : environ := {[ "topics" := ",orders,,payments" ]} in
  buildConnectorConfig sample.ParseDuration env = Built sample.config
  ∧ buildConnectorConfig sample.ParseDuration
      (<["topics" := strings.Join (topics sample.config) ","]> env)
    = Built sample.config.
Proof.
  intros env.
  assert (buildConnectorConfig sample.ParseDuration env = Built sample.config) as Hbuilt
    by (by vm_compute).
  split; [done|].
  by apply (topics_round_trip sample.ParseDuration env sample.config).
Defined.

Lemma mcb_invokes_both_witness :
  let c := makeClient (upstreamTimeout sample.config) in
  let msg := sample.order 7 sample.hello in
  let h := [EvPrint (OutConsumerError "broker gone")] in
  Value msg ≠ []
  ∧ sample.urlParses (functionURL sample.config "f1") = true
  ∧ sample.urlParses (functionURL sample.config "f2") = true
  ∧ (∀ h' httpReq, ∃ res, sample.gatewayUp c h' httpReq = DoRes res)
  ∧ "f1" ≠ "f2"
  ∧ types.Match sample.orders (Topic msg) = {[ "f1"; "f2" ]}
  ∧ (mcb sample.urlParses sample.gatewayUp sample.config c sample.orders msg h).2 = false.
Proof.
  intros c msg h.
  assert (∀ h' httpReq, ∃ res, sample.gatewayUp c h' httpReq = DoRes res) as Hdo
    by (intros h' httpReq; by eexists).
  assert (types.Match sample.orders (Topic msg) = {[ "f1"; "f2" ]}) as Hmatch
    by (by vm_compute).
  assert (sample.urlParses (functionURL sample.config "f1") = true) as Hf1
    by (by vm_compute).
  assert (sample.urlParses (functionURL sample.config "f2") = true) as Hf2
    by (by vm_compute).
  split_and!; [done|done|done|done|done|done|].
  by apply (mcb_invokes_both sample.urlParses sample.gatewayUp sample.config c
              sample.orders msg h "f1" "f2").
Defined.
